(** * popscle_dsc_pileup_merge_splitted: merging sharded popscle dsc-pileup output

    A shallow embedding of [popscle_dsc_pileup_merge_splitted.py].

    The script reassembles the four tables (CEL, PLP, UMI, VAR) that
    [popscle dsc-pileup] writes, out of the partial outputs of several runs
    over disjoint barcode lists.  Data frames are lists of typed rows, the
    file system is a finite map from paths to file contents, and the four
    procedures and [main] are written in a small state-and-exception monad
    over the file system and the diagnostic stream, following the source
    statement by statement.

    What the script takes from libraries (glob, gzip, the CSV reader and
    writer of polars) is not part of the repository: these enter through the
    record [Libs], and every theorem holds for every such record. *)

From Stdlib Require Import ZArith.
From Stdlib.Strings Require Import Byte Ascii String.
From stdpp Require Import base list strings gmap pretty sorting.

Local Open Scope string_scope.
Local Open Scope list_scope.
Local Open Scope nat_scope.

(** ** Exceptions and results *)

(** The exceptions the script can end with.  [SystemExit] is what
    [sys.exit] raises; the others are never caught. *)
Inductive Exn :=
  | SystemExit (code : Z)
  | ValueError (msg : string)
  | AssertionError (msg : string)
  | IndexError (msg : string)
  | OSError (path : string)
  | PolarsError (path : string).

(** A value, or the exception raised instead. *)
Inductive res (A : Type) :=
  | Ok (a : A)
  | Raise (e : Exn).
Arguments Ok {A} a.
Arguments Raise {A} e.

(** Sequencing: an exception skips what follows. *)
Definition res_bind {A B} (r : res A) (k : A → res B) : res B :=
  match r with
  | Ok a => k a
  | Raise e => Raise e
  end.

(** ** Data frames *)

(** A row of a partial CEL file as [pl.read_csv] types it. *)
Record CelRow := mkCelRow {
  cel_DROPLET_ID : Z;        (* "#DROPLET_ID" *)
  cel_BARCODE : string;
  cel_NUM_READ : Z;
  cel_NUM_UMI : Z;
  cel_NUM_UMIwSNP : Z;
  cel_NUM_SNP : Z
}.

(** After [.rename({"#DROPLET_ID": "DROPLET_ID_PARTITIONED"})] and
    [.with_columns(pl.lit(i).alias("PARTITION"))]. *)
Record CelPart := mkCelPart {
  DROPLET_ID_PARTITIONED : Z;
  BARCODE : string;
  NUM_READ : Z;
  NUM_UMI : Z;
  NUM_UMIwSNP : Z;
  NUM_SNP : Z;
  PARTITION : nat
}.

(** After [.with_row_count(name="DROPLET_ID", offset=0)]: the row count
    comes first, the columns of the concatenated frame follow. *)
Record CelFull := mkCelFull {
  DROPLET_ID : nat;
  cel_part : CelPart
}.

(** The columns selected for the persisted CEL file. *)
Record CelOut := mkCelOut {
  out_DROPLET_ID : nat;      (* written back as "#DROPLET_ID" *)
  out_BARCODE : string;
  out_NUM_READ : Z;
  out_NUM_UMI : Z;
  out_NUM_UMIwSNP : Z;
  out_NUM_SNP : Z
}.

Definition cel_tag (i : nat) (r : CelRow) : CelPart :=
  {| DROPLET_ID_PARTITIONED := cel_DROPLET_ID r;
     BARCODE := cel_BARCODE r;
     NUM_READ := cel_NUM_READ r;
     NUM_UMI := cel_NUM_UMI r;
     NUM_UMIwSNP := cel_NUM_UMIwSNP r;
     NUM_SNP := cel_NUM_SNP r;
     PARTITION := i |}.

Definition cel_select (r : CelFull) : CelOut :=
  {| out_DROPLET_ID := DROPLET_ID r;
     out_BARCODE := BARCODE (cel_part r);
     out_NUM_READ := NUM_READ (cel_part r);
     out_NUM_UMI := NUM_UMI (cel_part r);
     out_NUM_UMIwSNP := NUM_UMIwSNP (cel_part r);
     out_NUM_SNP := NUM_SNP (cel_part r) |}.

(** [pl.concat]: vertical concatenation; polars refuses an empty list of
    frames with [ValueError("cannot concat empty list")]. *)
Definition pl_concat {A} (dfs : list (list A)) : res (list A) :=
  match dfs with
  | [] => Raise (ValueError "cannot concat empty list")
  | _ => Ok (concat dfs)
  end.

(** [df.with_row_count(name, offset=0)]: the position of the row, from 0.
    (Polars counts rows in 32 bits and holds no frame of 2^32 rows, so the
    count is modelled without a bound.) *)
Definition with_row_count (df : list CelPart) : list CelFull :=
  imap mkCelFull df.

(** The frames appended to [popscle_pileup_cel_dfs] by the loop over
    [enumerate(sorted(glob.glob(...)))], given the parsed shards in that
    order. *)
Definition cel_parts (shards : list (list CelRow)) : list (list CelPart) :=
  imap (λ i rows, cel_tag i <$> rows) shards.

(** [pl.concat(popscle_pileup_cel_dfs).with_row_count(...)]. *)
Definition cel_merge (shards : list (list CelRow)) : res (list CelFull) :=
  res_bind (pl_concat (cel_parts shards)) (λ df, Ok (with_row_count df)).

(** ** SNP observations (PLP) *)

Record PlpRow := mkPlpRow {
  plp_DROPLET_ID : Z;        (* "#DROPLET_ID" *)
  plp_SNP_ID : Z;
  plp_ALLELES : string;
  plp_BASEQS : string
}.

(** After the rename and the added "PARTITION" column. *)
Record PlpPart := mkPlpPart {
  plp_DROPLET_ID_PARTITIONED : Z;
  SNP_ID : Z;
  ALLELES : string;
  BASEQS : string;
  plp_PARTITION : nat
}.

(** The columns selected for the persisted PLP file. *)
Record PlpOut := mkPlpOut {
  plp_out_DROPLET_ID : nat;  (* written back as "#DROPLET_ID" *)
  plp_out_SNP_ID : Z;
  plp_out_ALLELES : string;
  plp_out_BASEQS : string
}.

Definition plp_tag (i : nat) (r : PlpRow) : PlpPart :=
  {| plp_DROPLET_ID_PARTITIONED := plp_DROPLET_ID r;
     SNP_ID := plp_SNP_ID r;
     ALLELES := plp_ALLELES r;
     BASEQS := plp_BASEQS r;
     plp_PARTITION := i |}.

(** The join key [on=["PARTITION", "DROPLET_ID_PARTITIONED"]], on either
    side of the join. *)
Definition cel_key (c : CelFull) : nat * Z :=
  (PARTITION (cel_part c), DROPLET_ID_PARTITIONED (cel_part c)).

Definition plp_key (l : PlpPart) : nat * Z :=
  (plp_PARTITION l, plp_DROPLET_ID_PARTITIONED l).

(** [left.join(right, on=..., how="inner")]: every pair of a left and a
    right row with equal keys.  The rows are listed in the order of the
    left frame; polars does not promise an order for the rows of a join, so
    nothing below depends on it. *)
Definition inner_join (left : list PlpPart) (right : list CelFull)
  : list (PlpPart * CelFull) :=
  l ← left; (λ c, (l, c)) <$> filter (λ c, cel_key c = plp_key l) right.

(** [.select(pl.col("DROPLET_ID").alias("#DROPLET_ID"), pl.col("SNP_ID"),
    pl.col("ALLELES"), pl.col("BASEQS"))] on a joined row. *)
Definition plp_select (j : PlpPart * CelFull) : PlpOut :=
  {| plp_out_DROPLET_ID := DROPLET_ID j.2;
     plp_out_SNP_ID := SNP_ID j.1;
     plp_out_ALLELES := ALLELES j.1;
     plp_out_BASEQS := BASEQS j.1 |}.

(** The frame collected for partial PLP file number [i]. *)
Definition plp_part (popscle_pileup_cel_df : list CelFull) (i : nat)
    (rows : list PlpRow) : list PlpOut :=
  plp_select <$> inner_join (plp_tag i <$> rows) popscle_pileup_cel_df.

(** The frames written for the partial PLP files, in their order. *)
Definition plp_parts (popscle_pileup_cel_df : list CelFull)
    (shards : list (list PlpRow)) : list (list PlpOut) :=
  imap (plp_part popscle_pileup_cel_df) shards.

(** The correction table read as a function: the global id recorded for a
    pair (partition, partitioned droplet id), when there is one. *)
Definition global_id (df : list CelFull) (key : nat * Z) : option nat :=
  (λ hit, DROPLET_ID hit.2) <$> list_find (λ c, cel_key c = key) df.

(** What the specification asks of one shard of the SNP merge: keep the
    rows whose pair has an entry in the correction table, and put the
    global id recorded for the pair in their leading column. *)
Definition plp_rewrite (df : list CelFull) (i : nat) (r : PlpRow) : option PlpOut :=
  g ← global_id df (i, plp_DROPLET_ID r);
  Some {| plp_out_DROPLET_ID := g;
          plp_out_SNP_ID := plp_SNP_ID r;
          plp_out_ALLELES := plp_ALLELES r;
          plp_out_BASEQS := plp_BASEQS r |}.

Definition plp_part_spec (df : list CelFull) (i : nat) (rows : list PlpRow)
  : list PlpOut :=
  omap (plp_rewrite df i) rows.

(** ** UMI lines *)

Definition tab : ascii := "009"%char.

(** [line.split(TAB, 1)]: the text before the first tab and, when the
    line has a tab, the text after it. *)
Fixpoint split_tab_1 (line : string) : string * option string :=
  match line with
  | EmptyString => (EmptyString, None)
  | String c rest =>
      if Ascii.eqb c tab then (EmptyString, Some rest)
      else let '(hd, tl) := split_tab_1 rest in (String c hd, tl)
  end.

Fixpoint has_tab (line : string) : bool :=
  match line with
  | EmptyString => false
  | String c rest => Ascii.eqb c tab || has_tab rest
  end.

(** [str(line_count)]. *)
Definition str (n : nat) : string := pretty n.

(** The text one iteration of the inner loop prints to the full file:
    [print(str(line_count), line.split(TAB, 1)[1], sep=TAB, end='')], where
    TAB is the one-character string of a tab.  Taking element 1 of a
    one-element list raises [IndexError]. *)
Definition umi_line (line_count : nat) (line : string) : res string :=
  match (split_tab_1 line).2 with
  | Some rest => Ok (str line_count +:+ String tab rest)
  | None => Raise (IndexError "list index out of range")
  end.

(** The inner loop over the lines of one shard.  The state is the text
    printed to the full file so far (one entry per [print]) and
    [line_count]; an exception leaves what was printed before it. *)
Fixpoint umi_lines (lines : list string) (out : list string) (line_count : nat)
  : list string * res nat :=
  match lines with
  | [] => (out, Ok line_count)
  | line :: lines =>
      match umi_line line_count line with
      | Ok text => umi_lines lines (out ++ [text]) (line_count + 1)
      | Raise e => (out, Raise e)
      end
  end.

(** The outer loop over the shards. *)
Fixpoint umi_shards (shards : list (list string)) (out : list string)
    (line_count : nat) : list string * res nat :=
  match shards with
  | [] => (out, Ok line_count)
  | lines :: shards =>
      match umi_lines lines out line_count with
      | (out', Ok n) => umi_shards shards out' n
      | (out', Raise e) => (out', Raise e)
      end
  end.

(** ** Variants (VAR) *)

Record VarRow := mkVarRow {
  var_SNP_ID : Z;            (* "#SNP_ID", renamed to "SNP_ID" *)
  CHROM : string;
  POS : Z;
  REF : string;
  ALT : string;
  AF : string
}.

Global Instance VarRow_eq_dec : EqDecision VarRow.
Proof. solve_decision. Defined.

(** [df.slice(offset, length)]; a negative offset counts from the end. *)
Definition df_slice {A} (df : list A) (offset : Z) (len : nat) : list A :=
  let n := Z.of_nat (length df) in
  if (0 <=? offset)%Z then take len (drop (Z.to_nat offset) df)
  else if (- offset <=? n)%Z
       then take (Nat.min len (Z.to_nat (- offset))) (drop (Z.to_nat (n + offset)) df)
       else take len df.

(** [df[i]] for an integer [i] is [df.slice(i, 1)]: a frame of one row, or
    of none when there is no such row. *)
Definition df_getitem {A} (df : list A) (i : Z) : list A := df_slice df i 1.

(** [a.to_struct(..) == b.to_struct(..)]: row-wise equality of two struct
    series; series of different lengths compare unequal, once for every row
    of the left one.  (No column is null: the readers give typed values.) *)
Definition struct_eq (a b : list VarRow) : list bool :=
  if decide (length a = length b)
  then zip_with (λ x y, bool_decide (x = y)) a b
  else replicate (length a) false.

(** [s.item()]: the only value of a series of length one. *)
Definition item {A} (s : list A) : res A :=
  match s with
  | [x] => Ok x
  | _ => Raise (ValueError "can only call .item() if the series is of length 1")
  end.

(** [popscle_pileup_var_most_complete_df] together with
    [popscle_pileup_var_most_complete_filename]: both [None], or both set by
    the same assignment pair. *)
Definition VarState : Type := option (list VarRow * string).

Definition var_mismatch : string :=
  "SNP_IDs do not match between different popscle dsc pileup var files.".

(** The boundary check of the [elif] branch: the [assert] statement. *)
Definition var_assert (most_complete df : list VarRow) : res unit :=
  let last := (Z.of_nat (length most_complete) - 1)%Z in
  res_bind (item (struct_eq (df_getitem most_complete last) (df_getitem df last)))
    (λ same, if same : bool then Ok () else Raise (AssertionError var_mismatch)).

(** The body of the loop over the partial VAR files, after the file was
    read. *)
Definition var_step (st : VarState) (filename : string) (df : list VarRow)
  : res VarState :=
  match st with
  | None => Ok (Some (df, filename))
  | Some (most_complete, most_complete_filename) =>
      if decide (length most_complete < length df) then
        res_bind (var_assert most_complete df) (λ _, Ok (Some (df, filename)))
      else Ok st
  end.

(** The whole loop, over the parsed shards in sorted order. *)
Fixpoint var_scan (st : VarState) (shards : list (string * list VarRow))
  : res VarState :=
  match shards with
  | [] => Ok st
  | (filename, df) :: shards =>
      res_bind (var_step st filename df) (λ st', var_scan st' shards)
  end.

(** Truth value of [popscle_pileup_var_most_complete_filename]: [None] and
    the empty string are false. *)
Definition truthy (name : option string) : bool :=
  match name with
  | None => false
  | Some s => negb (String.eqb s EmptyString)
  end.

(** ** The file system and the libraries *)

(** A process state: the files by path, and the lines printed to
    [sys.stderr]. *)
Record World := mkWorld {
  fs : gmap string (list byte);
  stderr : list string
}.

(** What the script calls in [glob], [gzip] and [polars].  A reader gives
    [None] where the library raises (a file that is no gzip stream, a table
    that does not parse against the [dtypes]). *)
Record Libs := mkLibs {
  (* sorted(glob.glob(pattern)) over the files present *)
  sorted_glob : gmap string (list byte) → string → list string;
  (* the bytes of a gzip file whose uncompressed content is given *)
  gzip_compress : list byte → list byte;
  (* the lines of a gzip file opened in text mode, line ends included *)
  gzip_read_lines : list byte → option (list string);
  (* pl.read_csv(..., separator, has_header=True, dtypes=...) per table *)
  read_csv_cel : list byte → option (list CelRow);
  read_csv_plp : list byte → option (list PlpRow);
  read_csv_var : list byte → option (list VarRow);
  (* df.write_csv(buffer, has_header=..., separator) per table *)
  write_csv_cel : bool → list CelOut → list byte;
  write_csv_plp : bool → list PlpOut → list byte
}.

(** Computations over the world that may raise; the world reached when an
    exception is raised is kept, since files written before it stay. *)
Definition M (A : Type) : Type := World → World * res A.

Definition ret {A} (a : A) : M A := λ w, (w, Ok a).

Definition bind {A B} (m : M A) (k : A → M B) : M B :=
  λ w, match m w with
       | (w', Ok a) => k a w'
       | (w', Raise e) => (w', Raise e)
       end.

Definition raise {A} (e : Exn) : M A := λ w, (w, Raise e).

Definition lift {A} (r : res A) : M A := λ w, (w, r).

Global Instance M_ret : MRet M := @ret.
Global Instance M_bind : MBind M := λ A B k m, bind m k.

(** [print(line, file=sys.stderr)]. *)
Definition eprint (line : string) : M unit :=
  λ w, (mkWorld (fs w) (stderr w ++ [line]), Ok ()).

(** [os.path.exists(path)]. *)
Definition path_exists (path : string) : M bool :=
  λ w, (w, Ok (bool_decide (is_Some (fs w !! path)))).

Definition read_bytes (path : string) : M (list byte) :=
  λ w, match fs w !! path with
       | Some content => (w, Ok content)
       | None => (w, Raise (OSError path))
       end.

Definition write_bytes (path : string) (content : list byte) : M unit :=
  λ w, (mkWorld (<[path := content]> (fs w)) (stderr w), Ok ()).

(** [sys.exit(code)]. *)
Definition sys_exit {A} (code : Z) : M A := raise (SystemExit code).

(** The exit status of the process for the outcome of [main]: an uncaught
    exception other than [SystemExit] ends the interpreter with status 1. *)
Definition exit_status {A} (r : res A) : Z :=
  match r with
  | Ok _ => 0
  | Raise (SystemExit code) => code
  | Raise _ => 1
  end.

(** A [for] loop with a loop-carried state. *)
Fixpoint for_each {A S} (body : S → A → M S) (xs : list A) (s : S) : M S :=
  match xs with
  | [] => ret s
  | x :: xs => s' ← body s x; for_each body xs s'
  end.

(** [enumerate(xs)]. *)
Definition enumerate {A} (xs : list A) : list (nat * A) := imap pair xs.

(** The double quote that the messages put around a path. *)
Definition dq : string := String "034"%char EmptyString.

Definition quoted (s : string) : string := dq +:+ s +:+ dq.

Definition msg_exists (kind path : string) : string :=
  "Error: popscle pileup " +:+ kind +:+ " full file " +:+ quoted path
  +:+ " already exists.".

Definition msg_reading (kind path : string) : string :=
  "Reading partial popscle pileup " +:+ kind +:+ " file " +:+ quoted path
  +:+ " ...".

Definition msg_writing (kind path : string) : string :=
  "Writing popscle pileup " +:+ kind +:+ " full file " +:+ quoted path
  +:+ " ...".

Definition cel_suffix : string := ".pileup.cel.gz".
Definition plp_suffix : string := ".pileup.plp.gz".
Definition umi_suffix : string := ".pileup.umi.gz".
Definition var_suffix : string := ".pileup.var.gz".

(** The text written through a gzip handle opened in text mode. *)
Definition text_bytes (lines : list string) : list byte :=
  list_byte_of_string (fold_right String.append EmptyString lines).

Section Script.
Context (L : Libs).

(** [glob] sees the files present when it is called. *)
Definition glob_parts (prefix suffix : string) : M (list string) :=
  λ w, (w, Ok (sorted_glob L (fs w) (prefix +:+ ".*" +:+ suffix))).

(** Reading a file through one of the readers of [L]. *)
Definition read_with {A} (reader : list byte → option A) (path : string)
  : M A :=
  content ← read_bytes path;
  match reader content with
  | Some a => ret a
  | None => raise (PolarsError path)
  end.

(** The gzip file at [path] as it is when the handle is closed after
    [content] was written to it. *)
Definition gzip_write (path : string) (content : list byte) : M unit :=
  write_bytes path (gzip_compress L content).

(** *** Droplet merge (CEL) *)

Definition cel_read_part (dfs : list (list CelPart)) (ip : nat * string)
  : M (list (list CelPart)) :=
  let '(i, popscle_pileup_cel_part_filename) := ip in
  eprint (msg_reading "CEL" popscle_pileup_cel_part_filename);;
  rows ← read_with (read_csv_cel L) popscle_pileup_cel_part_filename;
  ret (dfs ++ [cel_tag i <$> rows]).

Definition write_popscle_pileup_cel_full_filename
    (popscle_dsc_output_prefix popscle_dsc_output_full_prefix : string)
  : M (option (list CelFull)) :=
  let popscle_pileup_cel_full_filename :=
    popscle_dsc_output_full_prefix +:+ cel_suffix in
  ex ← path_exists popscle_pileup_cel_full_filename;
  if ex : bool then
    eprint (msg_exists "CEL" popscle_pileup_cel_full_filename);;
    ret None
  else
    parts ← glob_parts popscle_dsc_output_prefix cel_suffix;
    popscle_pileup_cel_dfs ← for_each cel_read_part (enumerate parts) [];
    popscle_pileup_cel_df ←
      lift (res_bind (pl_concat popscle_pileup_cel_dfs)
              (λ df, Ok (with_row_count df)));
    (* with gzip_mod.open(..., "w") as fh_full: *)
    gzip_write popscle_pileup_cel_full_filename [];;
    (* the source prints "PLP" here *)
    eprint (msg_writing "PLP" popscle_pileup_cel_full_filename);;
    gzip_write popscle_pileup_cel_full_filename
      (write_csv_cel L true (cel_select <$> popscle_pileup_cel_df));;
    ret (Some popscle_pileup_cel_df).

(** *** SNP merge (PLP) *)

(** One iteration; the state is what was written to [fh_full] so far. *)
Definition plp_write_part (popscle_pileup_cel_df : list CelFull)
    (popscle_pileup_plp_full_filename : string)
    (written : list byte) (ip : nat * string) : M (list byte) :=
  let '(i, popscle_pileup_plp_part_filename) := ip in
  eprint (msg_reading "PLP" popscle_pileup_plp_part_filename);;
  rows ← read_with (read_csv_plp L) popscle_pileup_plp_part_filename;
  let bytes_io_tsv :=
    write_csv_plp L (bool_decide (i = 0))
      (plp_part popscle_pileup_cel_df i rows) in
  gzip_write popscle_pileup_plp_full_filename (written ++ bytes_io_tsv);;
  ret (written ++ bytes_io_tsv).

Definition write_popscle_pileup_plp_full_filename
    (popscle_pileup_cel_df : list CelFull)
    (popscle_dsc_output_prefix popscle_dsc_output_full_prefix : string)
  : M bool :=
  let popscle_pileup_plp_full_filename :=
    popscle_dsc_output_full_prefix +:+ plp_suffix in
  ex ← path_exists popscle_pileup_plp_full_filename;
  if ex : bool then
    eprint (msg_exists "PLP" popscle_pileup_plp_full_filename);;
    ret false
  else
    gzip_write popscle_pileup_plp_full_filename [];;
    eprint (msg_writing "PLP" popscle_pileup_plp_full_filename);;
    parts ← glob_parts popscle_dsc_output_prefix plp_suffix;
    for_each
      (plp_write_part popscle_pileup_cel_df popscle_pileup_plp_full_filename)
      (enumerate parts) [];;
    ret true.

(** *** UMI merge *)

(** One shard; the state is the lines printed to [fh_full] so far and
    [line_count].  When a line raises, the lines printed before it are in
    the file. *)
Definition umi_write_part (popscle_pileup_umi_full_filename : string)
    (st : list string * nat) (popscle_pileup_umi_part_filename : string)
  : M (list string * nat) :=
  eprint (msg_reading "UMI" popscle_pileup_umi_part_filename);;
  lines ← read_with (gzip_read_lines L) popscle_pileup_umi_part_filename;
  let '(out, r) := umi_lines lines st.1 st.2 in
  gzip_write popscle_pileup_umi_full_filename (text_bytes out);;
  line_count ← lift r;
  ret (out, line_count).

Definition write_popscle_pileup_umi_full_filename
    (popscle_dsc_output_prefix popscle_dsc_output_full_prefix : string)
  : M bool :=
  let line_count := 0 in
  let popscle_pileup_umi_full_filename :=
    popscle_dsc_output_full_prefix +:+ umi_suffix in
  ex ← path_exists popscle_pileup_umi_full_filename;
  if ex : bool then
    eprint (msg_exists "UMI" popscle_pileup_umi_full_filename);;
    ret false
  else
    gzip_write popscle_pileup_umi_full_filename [];;
    eprint (msg_writing "UMI" popscle_pileup_umi_full_filename);;
    parts ← glob_parts popscle_dsc_output_prefix umi_suffix;
    for_each (umi_write_part popscle_pileup_umi_full_filename)
      parts ([], line_count);;
    ret true.

(** *** Variant reconciliation (VAR) *)

Definition var_read_part (st : VarState)
    (popscle_pileup_var_part_filename : string) : M VarState :=
  eprint (msg_reading "VAR" popscle_pileup_var_part_filename);;
  popscle_pileup_var_df ←
    read_with (read_csv_var L) popscle_pileup_var_part_filename;
  lift (var_step st popscle_pileup_var_part_filename popscle_pileup_var_df).

(** [shutil.copy2(src, dst)] for a [dst] that is a file path. *)
Definition copy2 (src dst : string) : M unit :=
  content ← read_bytes src; write_bytes dst content.

Definition write_popscle_pileup_var_full_filename
    (popscle_dsc_output_prefix popscle_dsc_output_full_prefix : string)
  : M bool :=
  let popscle_pileup_var_full_filename :=
    popscle_dsc_output_full_prefix +:+ var_suffix in
  ex ← path_exists popscle_pileup_var_full_filename;
  if ex : bool then
    eprint (msg_exists "VAR" popscle_pileup_var_full_filename);;
    ret false
  else
    parts ← glob_parts popscle_dsc_output_prefix var_suffix;
    st ← for_each var_read_part parts None;
    let popscle_pileup_var_most_complete_filename := snd <$> st in
    if truthy popscle_pileup_var_most_complete_filename then
      eprint (msg_writing "VAR" popscle_pileup_var_full_filename);;
      copy2 (default EmptyString popscle_pileup_var_most_complete_filename)
        popscle_pileup_var_full_filename;;
      ret true
    else ret false.

(** *** The driver *)

(** One of the four upfront checks of [main]. *)
Definition check_output (kind path : string) (output_exists : bool) : M bool :=
  ex ← path_exists path;
  if ex : bool then eprint (msg_exists kind path);; ret true
  else ret output_exists.

(** [main] from the first merge on. *)
Definition main_merge
    (popscle_dsc_output_prefix popscle_dsc_output_full_prefix : string)
  : M unit :=
  popscle_pileup_cel_df ←
    write_popscle_pileup_cel_full_filename
      popscle_dsc_output_prefix popscle_dsc_output_full_prefix;
  match popscle_pileup_cel_df with
  | None => sys_exit 1
  | Some popscle_pileup_cel_df =>
      write_popscle_pileup_plp_full_filename popscle_pileup_cel_df
        popscle_dsc_output_prefix popscle_dsc_output_full_prefix;;
      write_popscle_pileup_umi_full_filename
        popscle_dsc_output_prefix popscle_dsc_output_full_prefix;;
      write_popscle_pileup_var_full_filename
        popscle_dsc_output_prefix popscle_dsc_output_full_prefix;;
      ret ()
  end.

(** [main], after [parser.parse_args()] gave the two prefixes. *)
Definition main
    (popscle_dsc_output_prefix popscle_dsc_output_full_prefix : string)
  : M unit :=
  let out := popscle_dsc_output_full_prefix in
  output_exists ← check_output "CEL" (out +:+ cel_suffix) false;
  output_exists ← check_output "PLP" (out +:+ plp_suffix) output_exists;
  output_exists ← check_output "UMI" (out +:+ umi_suffix) output_exists;
  output_exists ← check_output "VAR" (out +:+ var_suffix) output_exists;
  if output_exists : bool then sys_exit 1
  else main_merge popscle_dsc_output_prefix popscle_dsc_output_full_prefix.

End Script.

(** ** A small instance of the libraries

    The theorems below hold for every [Libs].  To run the script on
    concrete file systems an instance is needed; this one is as small as
    can be: a "gzip" file is its content behind the two magic bytes of
    gzip, a table stores one row per byte, its leading column being the
    value of the byte, and a pattern has one [*]. *)
Module Toy.

Definition gzip_compress (content : list byte) : list byte :=
  x1f :: x8b :: content.

Definition gzip_decompress (file : list byte) : option (list byte) :=
  match file with
  | x1f :: x8b :: content => Some content
  | _ => None
  end.

Definition newline : ascii := "010"%char.

(** The lines of a text, each with its line end; [cur] is the line being
    read, reversed. *)
Fixpoint lines_go (cur : string) (text : string) : list string :=
  match text with
  | EmptyString =>
      match cur with EmptyString => [] | _ => [String.rev cur] end
  | String c text =>
      if Ascii.eqb c newline then String.rev (String c cur) :: lines_go EmptyString text
      else lines_go (String c cur) text
  end.

Definition gzip_read_lines (file : list byte) : option (list string) :=
  content ← gzip_decompress file;
  Some (lines_go EmptyString (string_of_list_byte content)).

Definition byte_Z (b : byte) : Z := Z.of_N (Byte.to_N b).

Definition nat_byte (n : nat) : byte :=
  default x00 (Byte.of_N (N.of_nat n mod 256)).

Definition cel_row (b : byte) : CelRow :=
  mkCelRow (byte_Z b) (String (ascii_of_byte b) EmptyString) 0 0 0 0.

Definition plp_row (b : byte) : PlpRow := mkPlpRow (byte_Z b) 0 "A" "F".

Definition var_row (b : byte) : VarRow :=
  mkVarRow (byte_Z b) "1" (byte_Z b) "A" "C" "0.5".

Definition read_csv {A} (row : byte → A) (file : list byte) : option (list A) :=
  fmap (M:=list) row <$> gzip_decompress file.

Definition header (has_header : bool) : list byte :=
  if has_header then [x23] else [].

Definition write_csv_cel (has_header : bool) (rows : list CelOut) : list byte :=
  header has_header ++ ((λ r, nat_byte (out_DROPLET_ID r)) <$> rows).

Definition write_csv_plp (has_header : bool) (rows : list PlpOut) : list byte :=
  header has_header ++ ((λ r, nat_byte (plp_out_DROPLET_ID r)) <$> rows).

(** The text before and after the first [*] of a pattern. *)
Fixpoint split_star (pattern : string) : string * string :=
  match pattern with
  | EmptyString => (EmptyString, EmptyString)
  | String c rest =>
      if Ascii.eqb c "*"%char then (EmptyString, rest)
      else let '(pre, post) := split_star rest in (String c pre, post)
  end.

Definition glob_match (pattern name : string) : bool :=
  let '(pre, post) := split_star pattern in
  String.prefix pre name
  && String.prefix (String.rev post) (String.rev name)
  && bool_decide (String.length pre + String.length post ≤ String.length name).

Definition sorted_glob (files : gmap string (list byte)) (pattern : string)
  : list string :=
  merge_sort (λ a b, Is_true (String.leb a b))
    (filter (λ name, Is_true (glob_match pattern name)) (map_to_list files).*1).

Definition libs : Libs :=
  mkLibs sorted_glob gzip_compress gzip_read_lines
    (read_csv cel_row) (read_csv plp_row) (read_csv var_row)
    write_csv_cel write_csv_plp.

End Toy.

(** ** Sample inputs

    Three partial outputs under the prefix [in], in the encoding of [Toy]:
    droplet shards of 2, 3 and 1 rows, SNP shards of which the second
    refers to a droplet that its partition does not have, UMI shards, and
    variant shards of 3, 5 and 5 rows. *)
Module Sample.

Definition umi_text (fields : list (string * string)) : list byte :=
  text_bytes ((λ f, f.1 +:+ String tab (f.2 +:+ String Toy.newline EmptyString))
              <$> fields).

Definition files : gmap string (list byte) :=
  list_to_map
    [("in.0.pileup.cel.gz", Toy.gzip_compress [x00; x01]);
     ("in.1.pileup.cel.gz", Toy.gzip_compress [x00; x01; x02]);
     ("in.2.pileup.cel.gz", Toy.gzip_compress [x00]);
     ("in.0.pileup.plp.gz", Toy.gzip_compress [x01; x00; x01]);
     ("in.1.pileup.plp.gz", Toy.gzip_compress [x02; x07]);
     ("in.0.pileup.umi.gz", Toy.gzip_compress (umi_text [("0", "AAA"); ("1", "CCC")]));
     ("in.1.pileup.umi.gz", Toy.gzip_compress (umi_text [("0", "GGG")]));
     ("in.0.pileup.var.gz", Toy.gzip_compress [x01; x02; x03]);
     ("in.1.pileup.var.gz", Toy.gzip_compress [x01; x02; x03; x04; x05]);
     ("in.2.pileup.var.gz", Toy.gzip_compress [x01; x02; x03; x04; x05])].

Definition world : World := mkWorld files [].

Definition cel_shards : list (list CelRow) :=
  [Toy.cel_row <$> [x00; x01];
   Toy.cel_row <$> [x00; x01; x02];
   Toy.cel_row <$> [x00]].

(** The table the droplet merge returns for [cel_shards]. *)
Definition cel_df : list CelFull :=
  with_row_count (concat (cel_parts cel_shards)).

Definition plp_shards : list (list PlpRow) :=
  [Toy.plp_row <$> [x01; x00; x01];
   Toy.plp_row <$> [x02; x07]].

Definition var_shards : list (string * list VarRow) :=
  [("in.0.pileup.var.gz", Toy.var_row <$> [x01; x02; x03]);
   ("in.1.pileup.var.gz", Toy.var_row <$> [x01; x02; x03; x04; x05]);
   ("in.2.pileup.var.gz", Toy.var_row <$> [x01; x02; x03; x04; x05])].

Definition line (leading rest : string) : string :=
  leading +:+ String tab (rest +:+ String Toy.newline EmptyString).

Definition umi_shards : list (list string) :=
  [[line "0" "AAA"; line "1" "CCC"]; [line "0" "GGG"]].

(** The same files, with a line without a tab in the first UMI shard. *)
Definition bad_line : string := "no tab here" +:+ String Toy.newline EmptyString.

Definition bad_umi_shards : list (list string) :=
  [[line "0" "AAA"; bad_line; line "1" "CCC"]; [line "0" "GGG"]].

(** The files of [world] and two of the four destinations of [out]. *)
Definition rerun_world : World :=
  mkWorld
    (<["out.pileup.plp.gz" := Toy.gzip_compress [x23; x03]]>
       (<["out.pileup.var.gz" := Toy.gzip_compress [x01]]> files))
    [].


(** The files of [world] without the droplet shards. *)
Definition no_cel_world : World :=
  mkWorld
    (delete "in.0.pileup.cel.gz"
       (delete "in.1.pileup.cel.gz" (delete "in.2.pileup.cel.gz" files)))
    [].

(** No file at all. *)
Definition empty_world : World := mkWorld ∅ [].





(** The files after a run on [world]: all four destinations are there. *)
Definition done_world : World := (main Toy.libs "in" "out" world).1.


Definition bad_umi_world : World :=
  mkWorld
    (<["in.0.pileup.umi.gz" :=
         Toy.gzip_compress (text_bytes [line "0" "AAA"; bad_line; line "1" "CCC"])]> files)
    [].

End Sample.

(** ** Vocabulary of the statements *)

(** The file [name] is present and the reader makes [a] of it. *)
Definition readable {A} (reader : list byte → option A)
    (files : gmap string (list byte)) (name : string) (a : A) : Prop :=
  ∃ content, files !! name = Some content ∧ reader content = Some a.

(** The world after more lines were printed to [sys.stderr]. *)
Definition printed (w : World) (lines : list string) : World :=
  mkWorld (fs w) (stderr w ++ lines).

(** The files once a gzip handle on [path] was opened for writing. *)
Definition opened (L : Libs) (path : string) (files : gmap string (list byte))
  : gmap string (list byte) :=
  <[path := gzip_compress L []]> files.

(** The bytes of the frames [outs] as the SNP merge serialises them: the
    header with the first frame only. *)
Definition plp_bytes (L : Libs) (outs : list (list PlpOut)) : list byte :=
  concat (imap (λ i out, write_csv_plp L (bool_decide (i = 0)) out) outs).

(** What the specification asks of line number [k] of the UMI merge: the
    counter, a tab, and what followed the first tab of the line. *)
Definition umi_renumber (k : nat) (line : string) : string :=
  str k +:+ String tab (default EmptyString (split_tab_1 line).2).

Definition index_error : Exn := IndexError "list index out of range".

(** The four destinations of a run, by table kind. *)
Definition destinations (out : string) : list (string * string) :=
  [("CEL", out +:+ cel_suffix); ("PLP", out +:+ plp_suffix);
   ("UMI", out +:+ umi_suffix); ("VAR", out +:+ var_suffix)].

(** One error line for every destination that is present. *)
Definition reports (files : gmap string (list byte)) (out : string)
  : list string :=
  omap (λ d, if bool_decide (is_Some (files !! d.2))
             then Some (msg_exists d.1 d.2) else None)
       (destinations out).


(** From [w] to [w']: no file outside [paths] differs, no file is gone,
    and the diagnostic stream only grew. *)
Definition touches_only (paths : list string) (w w' : World) : Prop :=
  (∀ p, p ∉ paths → fs w' !! p = fs w !! p)
  ∧ (∀ p, is_Some (fs w !! p) → is_Some (fs w' !! p))
  ∧ stderr w `prefix_of` stderr w'.

(** A computation that, from every world and whatever its outcome, touches
    only [paths], and raises only exceptions in [E]. *)
Definition confined {A} (paths : list string) (E : Exn → Prop) (m : M A) : Prop :=
  ∀ w, touches_only paths w (m w).1 ∧ ∀ e, (m w).2 = Raise e → E e.

(** The exceptions other than [SystemExit]. *)
Definition no_exit (e : Exn) : Prop := ∀ code, e ≠ SystemExit code.

(** The number of rows before shard [i] in the concatenation. *)
Definition shard_offset {A} (shards : list (list A)) (i : nat) : nat :=
  sum_list (take i (length <$> shards)).

(** Every file of [w] is in [w'] with the same content. *)
Definition keeps (w w' : World) : Prop :=
  ∀ p content, fs w !! p = Some content → fs w' !! p = Some content.

(** A procedure with destination [dest]: from every world and whatever its
    outcome, it touches [dest] only, leaves every file that was there as it
    was, and does not raise [SystemExit]. *)
Definition safe_for {A} (dest : string) (m : M A) : Prop :=
  ∀ w, touches_only [dest] w (m w).1 ∧ keeps w (m w).1
       ∧ ∀ code, (m w).2 ≠ Raise (SystemExit code).




(** What the two merges together make of a row of SNP shard [i]: the
    partitioned id is looked up in droplet shard [i], and the position found
    there, counted from the start of that shard in the concatenation, is the
    id written; a row whose id is not in droplet shard [i] is dropped. *)
Definition plp_by_shard (cel_shards : list (list CelRow)) (i : nat)
    (r : PlpRow) : option PlpOut :=
  (λ hit, {| plp_out_DROPLET_ID := shard_offset cel_shards i + hit.1;
             plp_out_SNP_ID := plp_SNP_ID r;
             plp_out_ALLELES := plp_ALLELES r;
             plp_out_BASEQS := plp_BASEQS r |})
  <$> list_find (λ c, cel_DROPLET_ID c = plp_DROPLET_ID r)
        (default [] (cel_shards !! i)).

(** ** Droplet merge: global ids *)

Lemma with_row_count_lookup df k r :
  with_row_count df !! k = Some r → DROPLET_ID r = k ∧ df !! k = Some (cel_part r).
Proof.
  unfold with_row_count. rewrite list_lookup_imap.
  destruct (df !! k) as [p|]; simpl; [|done].
  intros [= <-]. done.
Qed.

Lemma with_row_count_ids_from (df : list CelPart) (n : nat) :
  DROPLET_ID <$> imap (λ k, mkCelFull (n + k)) df = seq n (length df).
Proof.
  revert n. induction df as [|p df IH]; intros n; simpl; [done|].
  f_equal; [lia|].
  rewrite <- (IH (S n)). f_equal. apply imap_ext. intros k x _. simpl.
  f_equal. lia.
Qed.

Lemma with_row_count_ids df :
  DROPLET_ID <$> with_row_count df = seq 0 (length df).
Proof. apply (with_row_count_ids_from df 0). Qed.

Lemma with_row_count_parts df : cel_part <$> with_row_count df = df.
Proof.
  unfold with_row_count.
  assert (∀ (f : nat → CelPart → CelFull),
    (∀ k p, cel_part (f k p) = p) → cel_part <$> imap f df = df) as H.
  { induction df as [|p df IH]; intros f Hf; simpl; [done|].
    rewrite Hf. f_equal. apply IH. intros. apply Hf. }
  apply H. done.
Qed.

Lemma cel_parts_nil_inv shards : cel_parts shards = [] → shards = [].
Proof. destruct shards; [done|]. discriminate. Qed.

Lemma cel_parts_length_concat shards :
  length (concat (cel_parts shards)) = length (concat shards).
Proof.
  unfold cel_parts.
  assert (∀ (g : nat → nat),
    length (concat (imap (λ i rows, cel_tag (g i) <$> rows) shards))
    = length (concat shards)) as H.
  { induction shards as [|s shards IH]; intros g; simpl; [done|].
    rewrite !length_app, length_fmap. f_equal. apply (IH (g ∘ S)). }
  apply (H id).
Qed.


(** The world-level loop of the droplet merge reads every shard and leaves
    the tagged frames in the list, in order. *)
Lemma cel_loop (L : Libs) names :
  ∀ shards (g : nat → nat) acc w,
  Forall2 (readable (read_csv_cel L) (fs w)) names shards →
  for_each (cel_read_part L) (imap (λ i name, (g i, name)) names) acc w
  = (printed w (msg_reading "CEL" <$> names),
     Ok (acc ++ imap (λ i rows, cel_tag (g i) <$> rows) shards)).
Proof.
  induction names as [|name names IH]; intros shards g acc [files err] H.
  - apply Forall2_nil_inv_l in H as ->. unfold printed. simpl.
    by rewrite !app_nil_r.
  - apply Forall2_cons_inv_l in H as (rows & shards' & (c & Hc & Hr) & H & ->).
    simpl in *. unfold mbind, M_bind, bind, eprint, read_with, read_bytes. simpl.
    unfold mbind, M_bind, bind. simpl. rewrite Hc, Hr. unfold ret at 1. simpl.
    specialize (IH shards' (g ∘ S) (acc ++ [cel_tag (g 0) <$> rows])
                  (mkWorld files (err ++ [msg_reading "CEL" name])) H).
    unfold compose in *. cbv beta in *. rewrite IH. unfold printed. simpl.
    by rewrite <- !app_assoc.
Qed.

Lemma cel_merge_ids shards df :
  cel_merge shards = Ok df →
  cel_part <$> df = concat (cel_parts shards)
  ∧ DROPLET_ID <$> df = seq 0 (length (concat shards))
  ∧ (∀ k r, df !! k = Some r → DROPLET_ID r = k).
Proof.
  intros H.
  assert (df = with_row_count (concat (cel_parts shards))) as ->.
  { unfold cel_merge, pl_concat in H.
    destruct (cel_parts shards); [done|]. simpl in H. by inversion H. }
  split_and!.
  - apply with_row_count_parts.
  - by rewrite with_row_count_ids, cel_parts_length_concat.
  - intros k r Hk. by apply with_row_count_lookup in Hk as [? _].
Qed.

Lemma cel_merge_nonempty shards :
  shards ≠ [] → ∃ df, cel_merge shards = Ok df.
Proof.
  intros Hne. unfold cel_merge, pl_concat.
  destruct (cel_parts shards) as [|p ps] eqn:E; simpl; [|eauto].
  by apply cel_parts_nil_inv in E.
Qed.

(** What the droplet merge does in a world where its destination is free
    and every shard parses: it returns [cel_merge] of the parsed shards
    and writes the selected columns. *)
Lemma cel_run (L : Libs) prefix out w shards :
  fs w !! (out +:+ cel_suffix) = None →
  Forall2 (readable (read_csv_cel L) (fs w))
    (sorted_glob L (fs w) (prefix +:+ ".*" +:+ cel_suffix)) shards →
  write_popscle_pileup_cel_full_filename L prefix out w
  = match cel_merge shards with
    | Ok df =>
        (mkWorld
           (<[out +:+ cel_suffix :=
                gzip_compress L (write_csv_cel L true (cel_select <$> df))]> (fs w))
           (stderr w
            ++ (msg_reading "CEL" <$> sorted_glob L (fs w) (prefix +:+ ".*" +:+ cel_suffix))
            ++ [msg_writing "PLP" (out +:+ cel_suffix)]),
         Ok (Some df))
    | Raise e =>
        (printed w (msg_reading "CEL" <$> sorted_glob L (fs w) (prefix +:+ ".*" +:+ cel_suffix)),
         Raise e)
    end.
Proof.
  intros Hfree Hread.
  unfold write_popscle_pileup_cel_full_filename.
  unfold mbind at 1, M_bind at 1, bind at 1, path_exists at 1.
  rewrite Hfree. rewrite bool_decide_eq_false_2 by (by intros [? ?]).
  unfold mbind at 1, M_bind at 1, bind at 1, glob_parts at 1.
  unfold mbind at 1, M_bind at 1, bind at 1.
  unfold enumerate.
  set (names := sorted_glob L (fs w) (prefix +:+ ".*" +:+ cel_suffix)) in *.
  assert (for_each (cel_read_part L) (imap pair names) [] w
          = (printed w (msg_reading "CEL" <$> names), Ok (cel_parts shards)))
    as -> by exact (cel_loop L names shards id [] w Hread).
  unfold mbind at 1, M_bind at 1, bind at 1, lift at 1.
  fold (cel_parts shards). fold (cel_merge shards).
  destruct (cel_merge shards) as [df|e]; [|done].
  unfold mbind, M_bind, bind, gzip_write, write_bytes, eprint, ret, printed. simpl.
  rewrite insert_insert_eq. by rewrite <- app_assoc.
Qed.

(** C1. In a world where the droplet destination is free and the sorted
    glob finds a non-empty list of shards that all parse, the droplet merge
    returns a table whose rows are the rows of the shards, tagged with the
    index of their shard, in the order of the concatenation, and whose
    DROPLET_ID column is 0, 1, ..., total_rows - 1: the id of a row is its
    position, whatever its barcode or partition.  The persisted file holds
    the same ids. *)
Theorem droplet_merge_global_ids (L : Libs) prefix out w shards :
  fs w !! (out +:+ cel_suffix) = None →
  Forall2 (readable (read_csv_cel L) (fs w))
    (sorted_glob L (fs w) (prefix +:+ ".*" +:+ cel_suffix)) shards →
  shards ≠ [] →
  ∃ w' df,
    write_popscle_pileup_cel_full_filename L prefix out w = (w', Ok (Some df))
    ∧ cel_part <$> df = concat (imap (λ i rows, cel_tag i <$> rows) shards)
    ∧ DROPLET_ID <$> df = seq 0 (length (concat shards))
    ∧ (∀ k r, df !! k = Some r → DROPLET_ID r = k)
    ∧ NoDup (DROPLET_ID <$> df)
    ∧ fs w' !! (out +:+ cel_suffix)
      = Some (gzip_compress L (write_csv_cel L true (cel_select <$> df)))
    ∧ out_DROPLET_ID <$> (cel_select <$> df) = seq 0 (length (concat shards)).
Proof.
  intros Hfree Hread Hne.
  destruct (cel_merge_nonempty shards Hne) as [df Hdf].
  pose proof (cel_run L prefix out w shards Hfree Hread) as Hrun.
  rewrite Hdf in Hrun.
  destruct (cel_merge_ids shards df Hdf) as (Hparts & Hids & Hpos).
  eexists _, df. split; [exact Hrun|]. split_and!; try done.
  - rewrite Hids. apply NoDup_seq.
  - simpl. apply lookup_insert_eq.
  - rewrite <- list_fmap_compose. exact Hids.
Qed.

Lemma droplet_merge_global_ids_witness :
  ∃ w' df,
    write_popscle_pileup_cel_full_filename Toy.libs "in" "out" Sample.world
    = (w', Ok (Some df))
    ∧ cel_part <$> df
      = concat (imap (λ i rows, cel_tag i <$> rows) Sample.cel_shards)
    ∧ DROPLET_ID <$> df = seq 0 (length (concat Sample.cel_shards))
    ∧ (∀ k r, df !! k = Some r → DROPLET_ID r = k)
    ∧ NoDup (DROPLET_ID <$> df)
    ∧ fs w' !! ("out" +:+ cel_suffix)
      = Some (gzip_compress Toy.libs
                (write_csv_cel Toy.libs true (cel_select <$> df)))
    ∧ out_DROPLET_ID <$> (cel_select <$> df)
      = seq 0 (length (concat Sample.cel_shards)).
Proof.
  apply (droplet_merge_global_ids Toy.libs "in" "out" Sample.world
           Sample.cel_shards).
  - vm_compute. reflexivity.
  - replace (sorted_glob Toy.libs (fs Sample.world) ("in" +:+ ".*" +:+ cel_suffix))
      with ["in.0.pileup.cel.gz"; "in.1.pileup.cel.gz"; "in.2.pileup.cel.gz"]
      by (vm_compute; reflexivity).
    repeat constructor; eexists; split; vm_compute; reflexivity.
  - discriminate.
Defined.

(** The ids follow the position, not the barcode or the partitioned id: a
    shard whose rows come with barcodes T, A and partitioned ids 84, 65
    keeps that order under ids 0, 1. *)
Example droplet_merge_ids_are_positions :
  res_bind (cel_merge [Toy.cel_row <$> [x54; x41]])
    (λ df, Ok (map (λ r, (DROPLET_ID r, BARCODE (cel_part r),
                          DROPLET_ID_PARTITIONED (cel_part r))) df))
  = Ok [(0, "T", 84%Z); (1, "A", 65%Z)].
Proof. reflexivity. Qed.

(** The scenario of three shards of 2, 3 and 1 rows: six rows, ids 0..5,
    rows 0-1 of partition 0, rows 2-4 of partition 1, row 5 of partition 2. *)
Example droplet_merge_2_3_1 :
  res_bind (cel_merge Sample.cel_shards)
    (λ df, Ok (map (λ r, (DROPLET_ID r, PARTITION (cel_part r),
                          DROPLET_ID_PARTITIONED (cel_part r))) df))
  = Ok [(0, 0, 0%Z); (1, 0, 1%Z); (2, 1, 0%Z); (3, 1, 1%Z); (4, 1, 2%Z);
        (5, 2, 0%Z)].
Proof. reflexivity. Qed.

(** ** SNP merge: the join against the correction table *)

Lemma global_id_None df key :
  global_id df key = None ↔ key ∉ cel_key <$> df.
Proof.
  unfold global_id. rewrite fmap_None, list_find_None, list_elem_of_fmap, Forall_forall.
  split.
  - intros H (c & -> & Hc). by apply (H c).
  - intros H c Hc Hk. apply H. by exists c.
Qed.

Lemma global_id_Some df key g :
  NoDup (cel_key <$> df) →
  global_id df key = Some g ↔ ∃ c, c ∈ df ∧ cel_key c = key ∧ DROPLET_ID c = g.
Proof.
  intros Hnd. unfold global_id. rewrite fmap_Some. split.
  - intros ([k c] & Hfind & ->). apply list_find_Some in Hfind as (Hk & Hc & _).
    exists c. split_and!; [|done..]. by eapply list_elem_of_lookup_2.
  - intros (c & Hin & Hkey & <-).
    destruct (list_find (λ c, cel_key c = key) df) as [[k c']|] eqn:Hfind.
    + exists (k, c'). split; [done|]. simpl. f_equal.
      apply list_find_Some in Hfind as (Hk & Hc' & _).
      apply list_elem_of_lookup in Hin as [k' Hk'].
      assert (k = k') as ->; [|congruence].
      eapply (NoDup_lookup (cel_key <$> df)); [done| |].
      * by rewrite list_lookup_fmap, Hk.
      * rewrite list_lookup_fmap, Hk'. simpl. congruence.
    + apply list_find_None in Hfind. rewrite Forall_forall in Hfind.
      by destruct (Hfind c Hin).
Qed.

Lemma filter_no_match {A} (P : A → Prop) `{∀ x, Decision (P x)} (l : list A) :
  (∀ x, x ∈ l → ¬ P x) → filter P l = [].
Proof.
  induction l as [|x l IH]; intros Hl; [done|].
  rewrite filter_cons_False by (apply Hl; left).
  apply IH. intros y Hy. apply Hl. by right.
Qed.

(** With unique keys, the rows of the right frame that match a key are the
    one found first, if any. *)
Lemma filter_unique_key df key :
  NoDup (cel_key <$> df) →
  filter (λ c, cel_key c = key) df
  = option_list (snd <$> list_find (λ c, cel_key c = key) df).
Proof.
  induction df as [|c df IH]; intros Hnd; [done|].
  rewrite fmap_cons in Hnd. apply NoDup_cons in Hnd as [Hc Hnd].
  rewrite filter_cons. simpl. destruct (decide (cel_key c = key)) as [Hk|Hk].
  - simpl. f_equal. subst key.
    apply filter_no_match. intros c' Hc' Hk. apply Hc.
    rewrite <- Hk. by apply list_elem_of_fmap_2.
  - rewrite IH by done.
    destruct (list_find _ df) as [[k c']|]; done.
Qed.

Lemma join_one_row df i r :
  NoDup (cel_key <$> df) →
  plp_select <$> ((λ c, (plp_tag i r, c))
                  <$> filter (λ c, cel_key c = plp_key (plp_tag i r)) df)
  = option_list (plp_rewrite df i r).
Proof.
  intros Hnd. rewrite (filter_unique_key df _ Hnd).
  unfold plp_rewrite, global_id.
  change (plp_key (plp_tag i r)) with (i, plp_DROPLET_ID r).
  destruct (list_find _ df) as [[k c]|]; done.
Qed.

(** On a correction table with unique keys the join of one shard is the
    rewriting the specification describes. *)
Lemma plp_part_eq_spec df i rows :
  NoDup (cel_key <$> df) → plp_part df i rows = plp_part_spec df i rows.
Proof.
  intros Hnd. unfold plp_part, plp_part_spec, inner_join.
  induction rows as [|r rows IH]; [done|].
  rewrite fmap_cons, bind_cons, fmap_app, IH, (join_one_row df i r Hnd).
  cbn [omap list_omap]. by destruct (plp_rewrite df i r).
Qed.

Lemma imap_imap {A B C} (f : nat → B → C) (g : nat → A → B) (l : list A) :
  imap f (imap g l) = imap (λ i x, f i (g i x)) l.
Proof.
  revert f g. induction l as [|x l IH]; intros f g; [done|].
  simpl. f_equal. apply IH.
Qed.

Lemma readable_insert {A} (reader : list byte → option A) files path content
    names (xs : list A) :
  path ∉ names →
  Forall2 (readable reader files) names xs →
  Forall2 (readable reader (<[path := content]> files)) names xs.
Proof.
  intros Hpath H. induction H as [|name x names xs (c & Hc & Hr) _ IH].
  - constructor.
  - apply not_elem_of_cons in Hpath as [Hne Hpath].
    constructor; [|by apply IH].
    exists c. by rewrite lookup_insert_ne.
Qed.

(** The loop of the SNP merge: the destination always holds what was
    written so far, and every shard adds its joined frame. *)
Lemma plp_loop (L : Libs) df dest names :
  ∀ shards (g : nat → nat) written w,
  fs w !! dest = Some (gzip_compress L written) →
  dest ∉ names →
  Forall2 (readable (read_csv_plp L) (fs w)) names shards →
  for_each (plp_write_part L df dest) (imap (λ i name, (g i, name)) names) written w
  = (mkWorld
       (<[dest := gzip_compress L
            (written ++ concat (imap (λ i rows,
               write_csv_plp L (bool_decide (g i = 0)) (plp_part df (g i) rows))
               shards))]> (fs w))
       (stderr w ++ (msg_reading "PLP" <$> names)),
     Ok (written ++ concat (imap (λ i rows,
               write_csv_plp L (bool_decide (g i = 0)) (plp_part df (g i) rows))
               shards))).
Proof.
  induction names as [|name names IH];
    intros shards g written [files err] Hdest Hnotin H.
  - apply Forall2_nil_inv_l in H as ->. simpl in *.
    rewrite !app_nil_r. by rewrite insert_id.
  - apply Forall2_cons_inv_l in H as (rows & shards' & (c & Hc & Hr) & H & ->).
    apply not_elem_of_cons in Hnotin as [Hne Hnotin].
    simpl in *.
    unfold mbind, M_bind, bind, eprint, read_with, read_bytes. simpl.
    unfold mbind, M_bind, bind. simpl. rewrite Hc, Hr. unfold ret at 1. simpl.
    set (chunk := write_csv_plp L (bool_decide (g 0 = 0)) (plp_part df (g 0) rows)).
    set (files1 := <[dest := gzip_compress L (written ++ chunk)]> files).
    specialize (IH shards' (g ∘ S) (written ++ chunk)
                  (mkWorld files1 (err ++ [msg_reading "PLP" name]))).
    unfold compose in *. cbv beta in *. simpl in IH.
    rewrite IH.
    + unfold files1. rewrite insert_insert_eq. by rewrite <- !app_assoc.
    + unfold files1. apply lookup_insert_eq.
    + done.
    + unfold files1. by apply readable_insert.
Qed.

(** What the SNP merge does in a world where its destination is free and
    is not itself taken for a shard, and every shard parses. *)
Lemma plp_run (L : Libs) df prefix out w shards :
  fs w !! (out +:+ plp_suffix) = None →
  out +:+ plp_suffix
    ∉ sorted_glob L (opened L (out +:+ plp_suffix) (fs w)) (prefix +:+ ".*" +:+ plp_suffix) →
  Forall2 (readable (read_csv_plp L) (opened L (out +:+ plp_suffix) (fs w)))
    (sorted_glob L (opened L (out +:+ plp_suffix) (fs w)) (prefix +:+ ".*" +:+ plp_suffix))
    shards →
  write_popscle_pileup_plp_full_filename L df prefix out w
  = (mkWorld
       (<[out +:+ plp_suffix := gzip_compress L (plp_bytes L (plp_parts df shards))]> (fs w))
       (stderr w ++ [msg_writing "PLP" (out +:+ plp_suffix)]
        ++ (msg_reading "PLP"
            <$> sorted_glob L (opened L (out +:+ plp_suffix) (fs w))
                  (prefix +:+ ".*" +:+ plp_suffix))),
     Ok true).
Proof.
  intros Hfree Hnotin Hread.
  unfold write_popscle_pileup_plp_full_filename.
  unfold mbind at 1, M_bind at 1, bind at 1, path_exists at 1.
  rewrite Hfree. rewrite bool_decide_eq_false_2 by (by intros [? ?]).
  unfold mbind at 1, M_bind at 1, bind at 1, gzip_write at 1, write_bytes at 1.
  unfold mbind at 1, M_bind at 1, bind at 1, eprint at 1.
  unfold mbind at 1, M_bind at 1, bind at 1, glob_parts at 1.
  cbn [fs stderr].
  fold (opened L (out +:+ plp_suffix) (fs w)).
  set (files := opened L (out +:+ plp_suffix) (fs w)) in *.
  set (names := sorted_glob L files (prefix +:+ ".*" +:+ plp_suffix)) in *.
  unfold mbind at 1, M_bind at 1, bind at 1, enumerate.
  assert (for_each (plp_write_part L df (out +:+ plp_suffix)) (imap pair names) []
            (mkWorld files (stderr w ++ [msg_writing "PLP" (out +:+ plp_suffix)]))
          = (mkWorld
               (<[out +:+ plp_suffix := gzip_compress L (plp_bytes L (plp_parts df shards))]> files)
               ((stderr w ++ [msg_writing "PLP" (out +:+ plp_suffix)])
                ++ (msg_reading "PLP" <$> names)),
             Ok (plp_bytes L (plp_parts df shards)))) as ->.
  { unfold plp_bytes, plp_parts. rewrite imap_imap.
    exact (plp_loop L df (out +:+ plp_suffix) names shards id []
             (mkWorld files (stderr w ++ [msg_writing "PLP" (out +:+ plp_suffix)]))
             (lookup_insert_eq _ _ _) Hnotin Hread). }
  unfold ret, files, opened. simpl. rewrite insert_insert_eq.
  by rewrite <- app_assoc.
Qed.

Lemma elem_of_plp_part_spec df i rows o :
  NoDup (cel_key <$> df) →
  o ∈ plp_part_spec df i rows
  ↔ ∃ r c, r ∈ rows ∧ c ∈ df ∧ cel_key c = (i, plp_DROPLET_ID r)
           ∧ o = mkPlpOut (DROPLET_ID c) (plp_SNP_ID r) (plp_ALLELES r) (plp_BASEQS r).
Proof.
  intros Hnd. unfold plp_part_spec. rewrite list_elem_of_omap. split.
  - intros (r & Hr & Ho). exists r. unfold plp_rewrite in Ho.
    destruct (global_id df (i, plp_DROPLET_ID r)) as [g|] eqn:Hg; [|done].
    apply (global_id_Some df _ g Hnd) in Hg as (c & Hc & Hk & <-).
    exists c. simpl in Ho. by inversion Ho.
  - intros (r & c & Hr & Hc & Hk & ->). exists r. split; [done|].
    unfold plp_rewrite.
    assert (global_id df (i, plp_DROPLET_ID r) = Some (DROPLET_ID c)) as ->; [|done].
    apply global_id_Some; [done|]. by exists c.
Qed.

(** C2. For a correction table with unique (partition, partitioned id)
    pairs, in a world where the SNP destination is free and the shards
    parse, the SNP merge succeeds and writes, shard by shard, frames that
    are (up to the order of rows within a shard, which the join does not
    fix) the input rows whose pair has an entry in the correction table,
    with the global id recorded for the pair in the leading column.  A row
    is emitted exactly when it comes from an input row of shard [i] whose
    pair [(i, partitioned id)] is the key of a row of the droplet table;
    input rows whose pair is absent are not emitted. *)
Theorem snp_merge_join (L : Libs) df prefix out w shards :
  NoDup (cel_key <$> df) →
  fs w !! (out +:+ plp_suffix) = None →
  out +:+ plp_suffix
    ∉ sorted_glob L (opened L (out +:+ plp_suffix) (fs w)) (prefix +:+ ".*" +:+ plp_suffix) →
  Forall2 (readable (read_csv_plp L) (opened L (out +:+ plp_suffix) (fs w)))
    (sorted_glob L (opened L (out +:+ plp_suffix) (fs w)) (prefix +:+ ".*" +:+ plp_suffix))
    shards →
  ∃ w' outs,
    write_popscle_pileup_plp_full_filename L df prefix out w = (w', Ok true)
    ∧ fs w' !! (out +:+ plp_suffix) = Some (gzip_compress L (plp_bytes L outs))
    ∧ Forall2 (≡ₚ) outs (imap (plp_part_spec df) shards)
    ∧ (∀ i rows out_i o,
         shards !! i = Some rows → outs !! i = Some out_i →
         o ∈ out_i
         ↔ ∃ r c, r ∈ rows ∧ c ∈ df ∧ cel_key c = (i, plp_DROPLET_ID r)
                  ∧ o = mkPlpOut (DROPLET_ID c) (plp_SNP_ID r)
                          (plp_ALLELES r) (plp_BASEQS r)).
Proof.
  intros Hnd Hfree Hnotin Hread.
  eexists _, (plp_parts df shards).
  split; [exact (plp_run L df prefix out w shards Hfree Hnotin Hread)|].
  assert (plp_parts df shards = imap (plp_part_spec df) shards) as Heq.
  { unfold plp_parts. apply imap_ext. intros i rows _.
    by apply plp_part_eq_spec. }
  split_and!.
  - simpl. apply lookup_insert_eq.
  - rewrite Heq. by apply Forall2_same_length_lookup_2; [done|];
      intros i x y Hx Hy; simplify_eq.
  - intros i rows out_i o Hrows Hout.
    rewrite Heq, list_lookup_imap, Hrows in Hout. simpl in Hout.
    injection Hout as <-. by apply elem_of_plp_part_spec.
Qed.

Lemma snp_merge_join_witness :
  ∃ w' outs,
    write_popscle_pileup_plp_full_filename Toy.libs Sample.cel_df "in" "out"
      Sample.world = (w', Ok true)
    ∧ fs w' !! ("out" +:+ plp_suffix)
      = Some (gzip_compress Toy.libs (plp_bytes Toy.libs outs))
    ∧ Forall2 (≡ₚ) outs (imap (plp_part_spec Sample.cel_df) Sample.plp_shards)
    ∧ (∀ i rows out_i o,
         Sample.plp_shards !! i = Some rows → outs !! i = Some out_i →
         o ∈ out_i
         ↔ ∃ r c, r ∈ rows ∧ c ∈ Sample.cel_df
                  ∧ cel_key c = (i, plp_DROPLET_ID r)
                  ∧ o = mkPlpOut (DROPLET_ID c) (plp_SNP_ID r)
                          (plp_ALLELES r) (plp_BASEQS r)).
Proof.
  apply (snp_merge_join Toy.libs Sample.cel_df "in" "out" Sample.world
           Sample.plp_shards).
  - apply (bool_decide_unpack _). vm_compute. reflexivity.
  - vm_compute. reflexivity.
  - apply (bool_decide_unpack _). vm_compute. reflexivity.
  - replace (sorted_glob Toy.libs _ _)
      with ["in.0.pileup.plp.gz"; "in.1.pileup.plp.gz"]
      by (vm_compute; reflexivity).
    repeat constructor; eexists; split; vm_compute; reflexivity.
Defined.

(** The scenario of the specification: droplet shard 1 has partitioned ids
    0, 1, 2 with global ids 2, 3, 4, so the row of SNP shard 1 that refers
    to partitioned id 2 is written with global id 4, and the row that
    refers to partitioned id 7 is dropped. *)
Example snp_merge_shard_1 :
  plp_out_DROPLET_ID <$> plp_part Sample.cel_df 1 (Toy.plp_row <$> [x02; x07])
  = [4].
Proof. reflexivity. Qed.

(** ** UMI merge: the running counter *)

Lemma split_tab_1_Some line :
  has_tab line = true →
  ∃ leading rest,
    split_tab_1 line = (leading, Some rest)
    ∧ line = leading +:+ String tab rest
    ∧ has_tab leading = false.
Proof.
  induction line as [|c line IH]; simpl; [done|].
  destruct (Ascii.eqb c tab) eqn:Hc; simpl.
  - intros _. apply Ascii.eqb_eq in Hc as ->. by exists EmptyString, line.
  - intros (leading & rest & -> & -> & Hl)%IH.
    exists (String c leading), rest. simpl. by rewrite Hc.
Qed.

Lemma split_tab_1_None line :
  has_tab line = false → split_tab_1 line = (line, None).
Proof.
  induction line as [|c line IH]; simpl; [done|].
  destruct (Ascii.eqb c tab); simpl; [done|].
  intros ->%IH. done.
Qed.

Lemma umi_line_ok k line :
  has_tab line = true → umi_line k line = Ok (umi_renumber k line).
Proof.
  intros (leading & rest & H & _)%split_tab_1_Some.
  unfold umi_line, umi_renumber. by rewrite H.
Qed.

Lemma umi_line_bad k line :
  has_tab line = false → umi_line k line = Raise index_error.
Proof.
  intros H%split_tab_1_None. unfold umi_line. by rewrite H.
Qed.

Lemma umi_lines_app l1 l2 out n :
  umi_lines (l1 ++ l2) out n
  = match umi_lines l1 out n with
    | (out', Ok n') => umi_lines l2 out' n'
    | (out', Raise e) => (out', Raise e)
    end.
Proof.
  revert out n. induction l1 as [|line l1 IH]; intros out n; simpl; [done|].
  destruct (umi_line n line); [apply IH|done].
Qed.

Lemma umi_shards_concat shards out n :
  umi_shards shards out n = umi_lines (concat shards) out n.
Proof.
  revert out n. induction shards as [|lines shards IH]; intros out n; simpl; [done|].
  rewrite umi_lines_app.
  destruct (umi_lines lines out n) as [out' [n'|e]]; [apply IH|done].
Qed.

Lemma umi_lines_ok lines :
  ∀ out n,
  Forall (λ line, has_tab line = true) lines →
  umi_lines lines out n
  = (out ++ imap (λ k, umi_renumber (n + k)) lines, Ok (n + length lines)).
Proof.
  induction lines as [|line lines IH]; intros out n H; simpl.
  - by rewrite app_nil_r, Nat.add_0_r.
  - apply Forall_cons in H as [Hl H].
    rewrite (umi_line_ok n line Hl), (IH _ _ H).
    rewrite <- app_assoc. simpl. rewrite Nat.add_0_r.
    f_equal; [|f_equal; lia]. do 2 f_equal.
    apply imap_ext. intros k x _. simpl. f_equal. lia.
Qed.

Lemma umi_lines_bad good bad rest out n :
  Forall (λ line, has_tab line = true) good →
  has_tab bad = false →
  umi_lines (good ++ bad :: rest) out n
  = (out ++ imap (λ k, umi_renumber (n + k)) good, Raise index_error).
Proof.
  intros Hgood Hbad. rewrite umi_lines_app, (umi_lines_ok good out n Hgood).
  simpl. by rewrite (umi_line_bad _ bad Hbad).
Qed.

(** A list with a line without a tab splits at the first such line. *)
Lemma first_line_without_tab lines :
  (∃ line, line ∈ lines ∧ has_tab line = false) →
  ∃ good bad rest,
    lines = good ++ bad :: rest
    ∧ Forall (λ line, has_tab line = true) good
    ∧ has_tab bad = false.
Proof.
  induction lines as [|l lines IH]; intros (line & Hin & Hline).
  - by apply elem_of_nil in Hin.
  - destruct (has_tab l) eqn:Hl.
    + apply elem_of_cons in Hin as [->|Hin]; [congruence|].
      destruct IH as (good & bad & rest & -> & Hgood & Hbad); [by exists line|].
      exists (l :: good), bad, rest. split_and!; [done| |done].
      by constructor.
    + by exists [], l, lines.
Qed.

(** The loop of the UMI merge over the shards: it ends as [umi_shards]
    does, and the destination holds the lines printed until then. *)
Lemma umi_loop (L : Libs) dest names :
  ∀ shards out n w,
  fs w !! dest = Some (gzip_compress L (text_bytes out)) →
  dest ∉ names →
  Forall2 (readable (gzip_read_lines L) (fs w)) names shards →
  ∃ w',
    for_each (umi_write_part L dest) names (out, n) w
    = (w', match umi_shards shards out n with
           | (out', Ok n') => Ok (out', n')
           | (_, Raise e) => Raise e
           end)
    ∧ fs w' = <[dest := gzip_compress L (text_bytes (umi_shards shards out n).1)]> (fs w).
Proof.
  induction names as [|name names IH];
    intros shards out n [files err] Hdest Hnotin H.
  - apply Forall2_nil_inv_l in H as ->. simpl in *.
    eexists. split; [done|]. simpl. by rewrite insert_id.
  - apply Forall2_cons_inv_l in H as (lines & shards' & (c & Hc & Hr) & H & ->).
    apply not_elem_of_cons in Hnotin as [Hne Hnotin].
    simpl in *.
    unfold umi_write_part, mbind, M_bind, bind, eprint, read_with, read_bytes.
    simpl. unfold mbind, M_bind, bind. simpl. rewrite Hc, Hr.
    unfold ret at 1. simpl.
    destruct (umi_lines lines out n) as [out' [n'|e]] eqn:Hlines; simpl.
    + destruct (IH shards' out' n'
                  (mkWorld (<[dest := gzip_compress L (text_bytes out')]> files)
                           (err ++ [msg_reading "UMI" name])))
        as (w' & Hrun & Hfs).
      * apply lookup_insert_eq.
      * done.
      * by apply readable_insert.
      * exists w'. split; [exact Hrun|].
        rewrite Hfs. simpl. apply insert_insert_eq.
    + eexists. split; [done|]. done.
Qed.

(** What the UMI merge does in a world where its destination is free and
    is not itself taken for a shard, and every shard can be read. *)
Lemma umi_run (L : Libs) prefix out w shards :
  fs w !! (out +:+ umi_suffix) = None →
  out +:+ umi_suffix
    ∉ sorted_glob L (opened L (out +:+ umi_suffix) (fs w)) (prefix +:+ ".*" +:+ umi_suffix) →
  Forall2 (readable (gzip_read_lines L) (opened L (out +:+ umi_suffix) (fs w)))
    (sorted_glob L (opened L (out +:+ umi_suffix) (fs w)) (prefix +:+ ".*" +:+ umi_suffix))
    shards →
  ∃ w',
    write_popscle_pileup_umi_full_filename L prefix out w
    = (w', match (umi_lines (concat shards) [] 0).2 with
           | Ok _ => Ok true
           | Raise e => Raise e
           end)
    ∧ fs w' = <[out +:+ umi_suffix :=
                  gzip_compress L (text_bytes (umi_lines (concat shards) [] 0).1)]> (fs w).
Proof.
  intros Hfree Hnotin Hread.
  unfold write_popscle_pileup_umi_full_filename.
  unfold mbind at 1, M_bind at 1, bind at 1, path_exists at 1.
  rewrite Hfree. rewrite bool_decide_eq_false_2 by (by intros [? ?]).
  unfold mbind at 1, M_bind at 1, bind at 1, gzip_write at 1, write_bytes at 1.
  unfold mbind at 1, M_bind at 1, bind at 1, eprint at 1.
  unfold mbind at 1, M_bind at 1, bind at 1, glob_parts at 1.
  cbn [fs stderr].
  fold (opened L (out +:+ umi_suffix) (fs w)).
  set (files := opened L (out +:+ umi_suffix) (fs w)) in *.
  set (names := sorted_glob L files (prefix +:+ ".*" +:+ umi_suffix)) in *.
  destruct (umi_loop L (out +:+ umi_suffix) names shards [] 0
              (mkWorld files (stderr w ++ [msg_writing "UMI" (out +:+ umi_suffix)])))
    as (w' & Hrun & Hfs); [apply lookup_insert_eq|done|done|].
  unfold mbind at 1, M_bind at 1, bind at 1. rewrite Hrun.
  rewrite umi_shards_concat in Hrun, Hfs |- *.
  exists w'. split.
  - by destruct (umi_lines (concat shards) [] 0) as [out' [n'|e]].
  - rewrite Hfs. unfold files, opened. simpl. apply insert_insert_eq.
Qed.

(** C7. In a world where the UMI destination is free and every line of
    every shard has a tab, the UMI merge succeeds and writes one line for
    every input line, in the order of the shards and of the lines within
    them: line number [k] of the concatenation (from 0, counted across the
    shards) is written as the decimal counter [k], a tab, and what followed
    the first tab of the input line, unchanged. *)
Theorem umi_merge_renumbers (L : Libs) prefix out w shards :
  fs w !! (out +:+ umi_suffix) = None →
  out +:+ umi_suffix
    ∉ sorted_glob L (opened L (out +:+ umi_suffix) (fs w)) (prefix +:+ ".*" +:+ umi_suffix) →
  Forall2 (readable (gzip_read_lines L) (opened L (out +:+ umi_suffix) (fs w)))
    (sorted_glob L (opened L (out +:+ umi_suffix) (fs w)) (prefix +:+ ".*" +:+ umi_suffix))
    shards →
  Forall (λ line, has_tab line = true) (concat shards) →
  ∃ w' written,
    write_popscle_pileup_umi_full_filename L prefix out w = (w', Ok true)
    ∧ fs w' !! (out +:+ umi_suffix) = Some (gzip_compress L (text_bytes written))
    ∧ length written = length (concat shards)
    ∧ (∀ k line, concat shards !! k = Some line →
         ∃ leading rest,
           line = leading +:+ String tab rest
           ∧ has_tab leading = false
           ∧ written !! k = Some (str k +:+ String tab rest)).
Proof.
  intros Hfree Hnotin Hread Htabs.
  destruct (umi_run L prefix out w shards Hfree Hnotin Hread) as (w' & Hrun & Hfs).
  rewrite (umi_lines_ok _ [] 0 Htabs) in Hrun, Hfs. simpl in Hrun, Hfs.
  exists w', (imap umi_renumber (concat shards)). split_and!.
  - exact Hrun.
  - rewrite Hfs. apply lookup_insert_eq.
  - apply length_imap.
  - intros k line Hk.
    rewrite Forall_forall in Htabs.
    destruct (split_tab_1_Some line) as (leading & rest & Hsplit & Hline & Hlead).
    { apply Htabs. by eapply list_elem_of_lookup_2. }
    exists leading, rest. split_and!; [done..|].
    rewrite list_lookup_imap, Hk. simpl. unfold umi_renumber.
    by rewrite Hsplit.
Qed.

Lemma umi_merge_renumbers_witness :
  ∃ w' written,
    write_popscle_pileup_umi_full_filename Toy.libs "in" "out" Sample.world
    = (w', Ok true)
    ∧ fs w' !! ("out" +:+ umi_suffix)
      = Some (gzip_compress Toy.libs (text_bytes written))
    ∧ length written = length (concat Sample.umi_shards)
    ∧ (∀ k line, concat Sample.umi_shards !! k = Some line →
         ∃ leading rest,
           line = leading +:+ String tab rest
           ∧ has_tab leading = false
           ∧ written !! k = Some (str k +:+ String tab rest)).
Proof.
  apply (umi_merge_renumbers Toy.libs "in" "out" Sample.world Sample.umi_shards).
  - vm_compute. reflexivity.
  - apply (bool_decide_unpack _). vm_compute. reflexivity.
  - replace (sorted_glob Toy.libs _ _)
      with ["in.0.pileup.umi.gz"; "in.1.pileup.umi.gz"]
      by (vm_compute; reflexivity).
    repeat constructor; eexists; split; vm_compute; reflexivity.
  - repeat constructor.
Defined.

(** The counter runs on across the shards: the only line of the second
    sample shard, numbered 0 there, is written as line 2. *)
Example umi_merge_sample :
  umi_shards Sample.umi_shards [] 0
  = ([Sample.line "0" "AAA"; Sample.line "1" "CCC"; Sample.line "2" "GGG"], Ok 3).
Proof. reflexivity. Qed.

(** C10. In a world where the UMI destination is free and the shards can
    be read, if some line of some shard has no tab, the UMI merge does not
    complete: at the first such line the split has no second element, the
    merge ends with the uncaught [IndexError], and the destination holds
    the renumbered lines that came before it, without that line and without
    any later one. *)
Theorem umi_merge_needs_tabs (L : Libs) prefix out w shards :
  fs w !! (out +:+ umi_suffix) = None →
  out +:+ umi_suffix
    ∉ sorted_glob L (opened L (out +:+ umi_suffix) (fs w)) (prefix +:+ ".*" +:+ umi_suffix) →
  Forall2 (readable (gzip_read_lines L) (opened L (out +:+ umi_suffix) (fs w)))
    (sorted_glob L (opened L (out +:+ umi_suffix) (fs w)) (prefix +:+ ".*" +:+ umi_suffix))
    shards →
  (∃ line, line ∈ concat shards ∧ has_tab line = false) →
  ∃ w' good bad rest,
    concat shards = good ++ bad :: rest
    ∧ Forall (λ line, has_tab line = true) good
    ∧ split_tab_1 bad = (bad, None)
    ∧ write_popscle_pileup_umi_full_filename L prefix out w
      = (w', Raise (IndexError "list index out of range"))
    ∧ fs w' !! (out +:+ umi_suffix)
      = Some (gzip_compress L (text_bytes (imap umi_renumber good))).
Proof.
  intros Hfree Hnotin Hread Hbad.
  destruct (first_line_without_tab _ Hbad) as (good & bad & rest & Hsplit & Hgood & Hb).
  destruct (umi_run L prefix out w shards Hfree Hnotin Hread) as (w' & Hrun & Hfs).
  rewrite Hsplit, (umi_lines_bad good bad rest [] 0 Hgood Hb) in Hrun, Hfs.
  simpl in Hrun, Hfs.
  exists w', good, bad, rest. split_and!; [done|done| |exact Hrun|].
  - by apply split_tab_1_None.
  - rewrite Hfs. apply lookup_insert_eq.
Qed.

Lemma umi_merge_needs_tabs_witness :
  ∃ w' good bad rest,
    concat Sample.bad_umi_shards = good ++ bad :: rest
    ∧ Forall (λ line, has_tab line = true) good
    ∧ split_tab_1 bad = (bad, None)
    ∧ write_popscle_pileup_umi_full_filename Toy.libs "in" "out" Sample.bad_umi_world
      = (w', Raise (IndexError "list index out of range"))
    ∧ fs w' !! ("out" +:+ umi_suffix)
      = Some (gzip_compress Toy.libs (text_bytes (imap umi_renumber good))).
Proof.
  apply (umi_merge_needs_tabs Toy.libs "in" "out" Sample.bad_umi_world
           Sample.bad_umi_shards).
  - vm_compute. reflexivity.
  - apply (bool_decide_unpack _). vm_compute. reflexivity.
  - replace (sorted_glob Toy.libs _ _)
      with ["in.0.pileup.umi.gz"; "in.1.pileup.umi.gz"]
      by (vm_compute; reflexivity).
    repeat constructor; eexists; split; vm_compute; reflexivity.
  - exists Sample.bad_line. split; [|reflexivity].
    apply (bool_decide_unpack _). vm_compute. reflexivity.
Defined.

(** ** Variant reconciliation *)


Lemma df_getitem_empty {A} (i : Z) : df_getitem (@nil A) i = [].
Proof.
  unfold df_getitem, df_slice.
  repeat case_match; by rewrite ?drop_nil, ?take_nil.
Qed.


(** A candidate without rows has no row to compare: the frame taken from
    it is empty, and [.item()] refuses the empty comparison. *)
Lemma var_assert_empty df :
  var_assert [] df
  = Raise (ValueError "can only call .item() if the series is of length 1").
Proof.
  unfold var_assert. rewrite df_getitem_empty. unfold struct_eq.
  by case_decide.
Qed.


(** A step that does not raise never shrinks the candidate, and the new
    candidate is the old one or the frame just read. *)
Lemma var_step_Ok best bname filename df st :
  var_step (Some (best, bname)) filename df = Ok st →
  (length df ≤ length best ∧ st = Some (best, bname))
  ∨ (length best < length df ∧ st = Some (df, filename)).
Proof.
  unfold var_step.
  destruct (decide (length best < length df)) as [Hlt|Hge].
  - destruct (var_assert best df); simpl; [|done].
    intros [= <-]. right. done.
  - intros [= <-]. left. split; [lia|done].
Qed.

(** The scan from a candidate on: the final candidate is at least as long
    as the first and as every shard seen; it is the first candidate when no
    shard was longer, and otherwise a shard that is longer than everything
    before it. *)
Lemma var_scan_from_candidate shards :
  ∀ best bname st,
  var_scan (Some (best, bname)) shards = Ok st →
  ∃ df name,
    st = Some (df, name)
    ∧ (∀ s, s ∈ shards → length s.2 ≤ length df)
    ∧ ((df = best ∧ name = bname)
       ∨ ∃ j, shards !! j = Some (name, df)
              ∧ length best < length df
              ∧ ∀ j' s, j' < j → shards !! j' = Some s → length s.2 < length df).
Proof.
  induction shards as [|[f d] shards IH]; intros best bname st Hscan.
  - simpl in Hscan. injection Hscan as <-. exists best, bname.
    split_and!; [done| |by left]. intros s Hs. by apply elem_of_nil in Hs.
  - cbn [var_scan] in Hscan.
    destruct (var_step (Some (best, bname)) f d) as [st1|e] eqn:Hstep;
      cbn [res_bind] in Hscan; [|done].
    apply var_step_Ok in Hstep as [[Hle ->]|[Hlt ->]];
      destruct (IH _ _ _ Hscan) as (df & name & -> & Hmax & Hsel);
      exists df, name; (split; [done|]).
    + destruct Hsel as [[-> ->]|(j & Hj & Hlt & Hbefore)].
      * split; [|by left]. intros s [->|Hs]%elem_of_cons; [done|by apply Hmax].
      * split.
        { intros s [->|Hs]%elem_of_cons; [simpl; lia|by apply Hmax]. }
        right. exists (S j). split_and!; [done..|].
        intros [|j'] s Hj' Hs; simpl in Hs.
        -- injection Hs as <-. simpl. lia.
        -- apply (Hbefore j'); [lia|done].
    + destruct Hsel as [[-> ->]|(j & Hj & Hlt' & Hbefore)].
      * split.
        { intros s [->|Hs]%elem_of_cons; [done|by apply Hmax]. }
        right. exists 0. split_and!; [done..|]. intros; lia.
      * split.
        { intros s [->|Hs]%elem_of_cons; [simpl; lia|by apply Hmax]. }
        right. exists (S j). split_and!; [done|lia|].
        intros [|j'] s Hj' Hs; simpl in Hs.
        -- injection Hs as <-. simpl. lia.
        -- apply (Hbefore j'); [lia|done].
Qed.

(** C3. When the scan of a non-empty list of variant shards (in sorted
    order) ends without an abort, the candidate it ends with is one of the
    shards, no shard has more rows than it, and every shard before it in
    the sorted order has strictly fewer rows: the shard selected is the
    first one of maximum row count. *)
Theorem var_scan_selects_first_longest shards st :
  shards ≠ [] →
  var_scan None shards = Ok st →
  ∃ i name df,
    st = Some (df, name)
    ∧ shards !! i = Some (name, df)
    ∧ (∀ j s, shards !! j = Some s → length s.2 ≤ length df)
    ∧ (∀ j s, j < i → shards !! j = Some s → length s.2 < length df).
Proof.
  destruct shards as [|[f d] shards]; [done|]. intros _ Hscan.
  simpl in Hscan.
  destruct (var_scan_from_candidate _ _ _ _ Hscan)
    as (df & name & -> & Hmax & [[-> ->]|(j & Hj & Hlt & Hbefore)]).
  - exists 0, f, d. split_and!; [done..| |intros; lia].
    intros [|j] s Hs; simpl in Hs.
    + by injection Hs as <-.
    + apply Hmax. by eapply list_elem_of_lookup_2.
  - exists (S j), name, df. split_and!; [done..| |].
    + intros [|j'] s Hs; simpl in Hs.
      * injection Hs as <-. simpl. lia.
      * apply Hmax. by eapply list_elem_of_lookup_2.
    + intros [|j'] s Hj' Hs; simpl in Hs.
      * by injection Hs as <-.
      * apply (Hbefore j'); [lia|done].
Qed.

Lemma var_scan_selects_first_longest_witness :
  ∃ i name df,
    Some (Toy.var_row <$> [x01; x02; x03; x04; x05], "in.1.pileup.var.gz")
    = Some (df, name)
    ∧ Sample.var_shards !! i = Some (name, df)
    ∧ (∀ j s, Sample.var_shards !! j = Some s → length s.2 ≤ length df)
    ∧ (∀ j s, j < i → Sample.var_shards !! j = Some s → length s.2 < length df).
Proof.
  apply (var_scan_selects_first_longest Sample.var_shards).
  - discriminate.
  - vm_compute. reflexivity.
Defined.

(** Shard A of 3 rows and shard B of 5 rows: B is selected when the third
    rows agree, and the run aborts when they differ. *)
Example var_scan_3_5_agree :
  var_scan None [("A", Toy.var_row <$> [x01; x02; x03]);
                 ("B", Toy.var_row <$> [x01; x02; x03; x04; x05])]
  = Ok (Some (Toy.var_row <$> [x01; x02; x03; x04; x05], "B")).
Proof. reflexivity. Qed.

Example var_scan_3_5_differ :
  var_scan None [("A", Toy.var_row <$> [x01; x02; x03]);
                 ("B", Toy.var_row <$> [x01; x02; x09; x04; x05])]
  = Raise (AssertionError var_mismatch).
Proof. reflexivity. Qed.



Lemma VarRow_eq_fields (a b : VarRow) :
  a = b
  ↔ var_SNP_ID a = var_SNP_ID b ∧ CHROM a = CHROM b ∧ POS a = POS b
    ∧ REF a = REF b ∧ ALT a = ALT b ∧ AF a = AF b.
Proof.
  split; [by intros ->|].
  destruct a, b. simpl. intros (-> & -> & -> & -> & -> & ->). done.
Qed.




(** The world-level loop of the variant reconciliation ends as [var_scan]
    does on the parsed shards, and touches no file. *)
Lemma var_loop (L : Libs) names :
  ∀ shards st w,
  Forall2 (readable (read_csv_var L) (fs w)) names shards →
  ∃ w',
    for_each (var_read_part L) names st w = (w', var_scan st (zip names shards))
    ∧ fs w' = fs w.
Proof.
  induction names as [|name names IH]; intros shards st [files err] H.
  - apply Forall2_nil_inv_l in H as ->. by eexists.
  - apply Forall2_cons_inv_l in H as (df & shards' & (c & Hc & Hr) & H & ->).
    simpl in *.
    unfold var_read_part, mbind, M_bind, bind, eprint, read_with, read_bytes.
    simpl. unfold mbind, M_bind, bind. simpl. rewrite Hc, Hr.
    unfold ret at 1, lift at 1. simpl.
    destruct (var_step st name df) as [st'|e]; simpl; [|by eexists].
    destruct (IH shards' st' (mkWorld files (err ++ [msg_reading "VAR" name])) H)
      as (w' & Hrun & Hfs).
    by exists w'.
Qed.

Lemma var_scan_winner_in shards :
  ∀ st df name,
  var_scan st shards = Ok (Some (df, name)) →
  st = Some (df, name) ∨ (name, df) ∈ shards.
Proof.
  induction shards as [|[f d] shards IH]; intros st df name Hscan.
  - left. simpl in Hscan. by injection Hscan.
  - cbn [var_scan] in Hscan.
    destruct (var_step st f d) as [st'|e] eqn:Hstep; cbn [res_bind] in Hscan; [|done].
    destruct (IH _ _ _ Hscan) as [->|Hin]; [|right; by right].
    destruct st as [[best bname]|].
    + apply var_step_Ok in Hstep as [[_ Hst]|[_ Hst]].
      * by left.
      * right. injection Hst as -> ->. left.
    + right. simpl in Hstep. injection Hstep as -> ->. left.
Qed.

(** C8. In a world where the variant destination is free and the shards
    parse, when the scan ends with a winning shard, the variant
    reconciliation succeeds and leaves at the destination exactly the bytes
    of the winning shard's file: the file system changes at the destination
    only, and what is written there is the content found at the winner's
    path, not a serialisation of the parsed table. *)
Theorem var_copy_verbatim (L : Libs) prefix out w shards df winner :
  fs w !! (out +:+ var_suffix) = None →
  Forall2 (readable (read_csv_var L) (fs w))
    (sorted_glob L (fs w) (prefix +:+ ".*" +:+ var_suffix)) shards →
  var_scan None (zip (sorted_glob L (fs w) (prefix +:+ ".*" +:+ var_suffix)) shards)
  = Ok (Some (df, winner)) →
  winner ≠ EmptyString →
  ∃ w' content,
    write_popscle_pileup_var_full_filename L prefix out w = (w', Ok true)
    ∧ winner ∈ sorted_glob L (fs w) (prefix +:+ ".*" +:+ var_suffix)
    ∧ fs w !! winner = Some content
    ∧ fs w' = <[out +:+ var_suffix := content]> (fs w)
    ∧ fs w' !! (out +:+ var_suffix) = fs w !! winner.
Proof.
  intros Hfree Hread Hscan Hname.
  set (names := sorted_glob L (fs w) (prefix +:+ ".*" +:+ var_suffix)) in *.
  assert (winner ∈ names) as Hin.
  { apply var_scan_winner_in in Hscan as [?|Hin]; [done|].
    by apply elem_of_zip_l in Hin. }
  assert (∃ content, fs w !! winner = Some content) as [content Hcontent].
  { apply list_elem_of_lookup in Hin as [i Hi].
    destruct (Forall2_lookup_l _ _ _ _ _ Hread Hi) as (d & _ & c & Hc & _).
    by exists c. }
  destruct (var_loop L names shards None w Hread) as (w1 & Hloop & Hfs).
  exists (mkWorld (<[out +:+ var_suffix := content]> (fs w))
            (stderr w1 ++ [msg_writing "VAR" (out +:+ var_suffix)])), content.
  split_and!; [|done|done|done|].
  - unfold write_popscle_pileup_var_full_filename.
    unfold mbind at 1, M_bind at 1, bind at 1, path_exists at 1.
    rewrite Hfree. rewrite bool_decide_eq_false_2 by (by intros [? ?]).
    unfold mbind at 1, M_bind at 1, bind at 1, glob_parts at 1.
    fold names. unfold mbind at 1, M_bind at 1, bind at 1.
    rewrite Hloop, Hscan. simpl.
    destruct (String.eqb_spec winner EmptyString) as [|_]; [done|]. simpl.
    unfold mbind, M_bind, bind, eprint, copy2, read_bytes, write_bytes, ret.
    simpl. unfold mbind, M_bind, bind. simpl.
    rewrite Hfs, Hcontent. done.
  - simpl. rewrite Hcontent. apply lookup_insert_eq.
Qed.

(** ** The driver *)

Lemma check_output_eq kind path output_exists w :
  check_output kind path output_exists w
  = match fs w !! path with
    | Some _ => (printed w [msg_exists kind path], Ok true)
    | None => (w, Ok output_exists)
    end.
Proof.
  unfold check_output, mbind, M_bind, bind, path_exists.
  by destruct (fs w !! path).
Qed.

(** [main] is its four upfront checks, then the merges. *)
Lemma main_eq (L : Libs) prefix out w :
  main L prefix out w
  = match reports (fs w) out with
    | [] => main_merge L prefix out w
    | lines => (printed w lines, Raise (SystemExit 1))
    end.
Proof.
  destruct w as [files err].
  unfold main, reports, destinations, mbind, M_bind, bind.
  cbn [omap list_omap fs stderr fst snd].
  destruct (files !! (out +:+ cel_suffix)) eqn:Hcel,
    (files !! (out +:+ plp_suffix)) eqn:Hplp,
    (files !! (out +:+ umi_suffix)) eqn:Humi,
    (files !! (out +:+ var_suffix)) eqn:Hvar;
    repeat (rewrite check_output_eq; cbn [fs stderr printed];
            rewrite ?Hcel, ?Hplp, ?Humi, ?Hvar);
    unfold printed; cbn [fs stderr bool_decide decide_rel mbind option_bind];
    rewrite <- ?app_assoc; reflexivity.
Qed.

Lemma reports_complete files out d :
  d ∈ destinations out → is_Some (files !! d.2) →
  msg_exists d.1 d.2 ∈ reports files out.
Proof.
  intros Hd Hex. unfold reports. apply list_elem_of_omap. exists d.
  split; [done|]. by rewrite bool_decide_eq_true_2.
Qed.

(** C6. When at least one of the four destinations is present, [main]
    ends in [sys.exit(1)]: the exit status is 1, no file is created or
    changed, one error line is printed for every destination that is
    present, and nothing else happens: no glob, no read and no write, so
    the outcome is the same for all libraries. *)
Theorem main_refuses_existing_outputs (L : Libs) prefix out w d :
  d ∈ destinations out →
  is_Some (fs w !! d.2) →
  ∃ w',
    main L prefix out w = (w', Raise (SystemExit 1))
    ∧ exit_status (main L prefix out w).2 = 1%Z
    ∧ fs w' = fs w
    ∧ stderr w' = stderr w ++ reports (fs w) out
    ∧ (∀ d', d' ∈ destinations out → is_Some (fs w !! d'.2) →
             msg_exists d'.1 d'.2 ∈ stderr w')
    ∧ (∀ L', main L' prefix out w = main L prefix out w).
Proof.
  intros Hd Hex.
  pose proof (reports_complete (fs w) out d Hd Hex) as Hrep.
  assert (∀ L', main L' prefix out w
                = (printed w (reports (fs w) out), Raise (SystemExit 1))) as Hmain.
  { intros L'. rewrite main_eq.
    destruct (reports (fs w) out); [by apply elem_of_nil in Hrep|done]. }
  exists (printed w (reports (fs w) out)).
  rewrite !Hmain. split_and!; try done.
  intros d' Hd' Hex'. simpl. apply elem_of_app. right.
  by apply reports_complete.
Qed.

Lemma main_refuses_existing_outputs_witness :
  ∃ w',
    main Toy.libs "in" "out" Sample.rerun_world = (w', Raise (SystemExit 1))
    ∧ exit_status (main Toy.libs "in" "out" Sample.rerun_world).2 = 1%Z
    ∧ fs w' = fs Sample.rerun_world
    ∧ stderr w' = stderr Sample.rerun_world ++ reports (fs Sample.rerun_world) "out"
    ∧ (∀ d', d' ∈ destinations "out" → is_Some (fs Sample.rerun_world !! d'.2) →
             msg_exists d'.1 d'.2 ∈ stderr w')
    ∧ (∀ L', main L' "in" "out" Sample.rerun_world
             = main Toy.libs "in" "out" Sample.rerun_world).
Proof.
  apply (main_refuses_existing_outputs Toy.libs "in" "out" Sample.rerun_world
           ("VAR", "out" +:+ var_suffix)).
  - apply (bool_decide_unpack _). vm_compute. reflexivity.
  - apply (bool_decide_unpack _). vm_compute. reflexivity.
Defined.

(** Both offending paths are reported, in the order of the checks. *)
Example main_rerun_reports :
  stderr (main Toy.libs "in" "out" Sample.rerun_world).1
  = [msg_exists "PLP" "out.pileup.plp.gz"; msg_exists "VAR" "out.pileup.var.gz"].
Proof. vm_compute. reflexivity. Qed.



(** A destination that appears between the upfront check and its merge:
    the SNP merge prints its error and returns [False], the other merges
    run, and the run still ends normally. *)
Example main_merge_plp_refused :
  let w := mkWorld (<["out.pileup.plp.gz" := []]> Sample.files) [] in
  (write_popscle_pileup_plp_full_filename Toy.libs Sample.cel_df "in" "out"
     (write_popscle_pileup_cel_full_filename Toy.libs "in" "out" w).1).2
  = Ok false
  ∧ (main_merge Toy.libs "in" "out" w).2 = Ok ()
  ∧ fs (main_merge Toy.libs "in" "out" w).1 !! "out.pileup.plp.gz" = Some [].
Proof. vm_compute. done. Qed.

Lemma var_copy_verbatim_witness :
  ∃ w' content,
    write_popscle_pileup_var_full_filename Toy.libs "in" "out" Sample.world
    = (w', Ok true)
    ∧ "in.1.pileup.var.gz"
      ∈ sorted_glob Toy.libs (fs Sample.world) ("in" +:+ ".*" +:+ var_suffix)
    ∧ fs Sample.world !! "in.1.pileup.var.gz" = Some content
    ∧ fs w' = <["out" +:+ var_suffix := content]> (fs Sample.world)
    ∧ fs w' !! ("out" +:+ var_suffix) = fs Sample.world !! "in.1.pileup.var.gz".
Proof.
  apply (var_copy_verbatim Toy.libs "in" "out" Sample.world
           (snd <$> Sample.var_shards)
           (Toy.var_row <$> [x01; x02; x03; x04; x05])).
  - vm_compute. reflexivity.
  - replace (sorted_glob Toy.libs _ _)
      with ["in.0.pileup.var.gz"; "in.1.pileup.var.gz"; "in.2.pileup.var.gz"]
      by (vm_compute; reflexivity).
    repeat constructor; eexists; split; vm_compute; reflexivity.
  - vm_compute. reflexivity.
  - discriminate.
Defined.

(** ** No shards *)

Lemma printed_nil w : printed w [] = w.
Proof. destruct w. unfold printed. simpl. by rewrite app_nil_r. Qed.

(** C5, amended.  When the glob finds no shard of a kind and the
    destination of that kind is free: the variant reconciliation writes
    nothing, prints nothing and returns [False]; the SNP merge and the UMI
    merge each leave an empty gzip file at their destination and return
    [True]; none of the three raises.  The droplet merge is different: the
    concatenation of an empty list of frames raises, and the merge ends
    with that uncaught [ValueError] before it writes anything. *)
Theorem merges_without_shards (L : Libs) prefix out w df :
  (fs w !! (out +:+ var_suffix) = None →
   sorted_glob L (fs w) (prefix +:+ ".*" +:+ var_suffix) = [] →
   write_popscle_pileup_var_full_filename L prefix out w = (w, Ok false))
  ∧ (fs w !! (out +:+ plp_suffix) = None →
     sorted_glob L (opened L (out +:+ plp_suffix) (fs w))
       (prefix +:+ ".*" +:+ plp_suffix) = [] →
     write_popscle_pileup_plp_full_filename L df prefix out w
     = (mkWorld (<[out +:+ plp_suffix := gzip_compress L []]> (fs w))
          (stderr w ++ [msg_writing "PLP" (out +:+ plp_suffix)]),
        Ok true))
  ∧ (fs w !! (out +:+ umi_suffix) = None →
     sorted_glob L (opened L (out +:+ umi_suffix) (fs w))
       (prefix +:+ ".*" +:+ umi_suffix) = [] →
     write_popscle_pileup_umi_full_filename L prefix out w
     = (mkWorld (<[out +:+ umi_suffix := gzip_compress L []]> (fs w))
          (stderr w ++ [msg_writing "UMI" (out +:+ umi_suffix)]),
        Ok true))
  ∧ (fs w !! (out +:+ cel_suffix) = None →
     sorted_glob L (fs w) (prefix +:+ ".*" +:+ cel_suffix) = [] →
     write_popscle_pileup_cel_full_filename L prefix out w
     = (w, Raise (ValueError "cannot concat empty list"))).
Proof.
  split_and!; intros Hfree Hglob.
  - unfold write_popscle_pileup_var_full_filename, mbind, M_bind, bind,
      path_exists, glob_parts.
    rewrite Hfree. rewrite bool_decide_eq_false_2 by (by intros [? ?]).
    by rewrite Hglob.
  - pose proof (plp_run L df prefix out w []) as Hrun.
    rewrite Hglob in Hrun. rewrite Hrun; [|done|apply not_elem_of_nil|constructor].
    by rewrite app_nil_r.
  - unfold write_popscle_pileup_umi_full_filename, mbind, M_bind, bind,
      path_exists, glob_parts, gzip_write, write_bytes, eprint.
    rewrite Hfree. rewrite bool_decide_eq_false_2 by (by intros [? ?]).
    cbn [fs stderr]. fold (opened L (out +:+ umi_suffix) (fs w)).
    by rewrite Hglob.
  - pose proof (cel_run L prefix out w [] Hfree) as Hrun.
    rewrite Hglob in Hrun. rewrite Hrun by constructor.
    simpl. by rewrite printed_nil.
Qed.

Lemma merges_without_shards_witness :
  write_popscle_pileup_var_full_filename Toy.libs "in" "out" Sample.empty_world
  = (Sample.empty_world, Ok false)
  ∧ write_popscle_pileup_plp_full_filename Toy.libs Sample.cel_df "in" "out"
      Sample.empty_world
    = (mkWorld {["out.pileup.plp.gz" := Toy.gzip_compress []]}
         [msg_writing "PLP" "out.pileup.plp.gz"], Ok true)
  ∧ write_popscle_pileup_umi_full_filename Toy.libs "in" "out" Sample.empty_world
    = (mkWorld {["out.pileup.umi.gz" := Toy.gzip_compress []]}
         [msg_writing "UMI" "out.pileup.umi.gz"], Ok true)
  ∧ write_popscle_pileup_cel_full_filename Toy.libs "in" "out" Sample.empty_world
    = (Sample.empty_world, Raise (ValueError "cannot concat empty list")).
Proof.
  destruct (merges_without_shards Toy.libs "in" "out" Sample.empty_world
              Sample.cel_df) as (Hvar & Hplp & Humi & Hcel).
  split_and!.
  - apply Hvar; vm_compute; reflexivity.
  - rewrite Hplp; [reflexivity|vm_compute; reflexivity..].
  - rewrite Humi; [reflexivity|vm_compute; reflexivity..].
  - apply Hcel; vm_compute; reflexivity.
Defined.

(** C5 as stated fails for the droplet table: with SNP, UMI and variant
    shards but no droplet shard the glob of the droplet merge is empty and
    the run fails: it ends with the uncaught [ValueError] of the
    concatenation, exit status 1, and has written no file. *)
Lemma no_droplet_shards_run_fails :
  sorted_glob Toy.libs (fs Sample.no_cel_world) ("in" +:+ ".*" +:+ cel_suffix) = []
  ∧ main Toy.libs "in" "out" Sample.no_cel_world
    = (Sample.no_cel_world, Raise (ValueError "cannot concat empty list"))
  ∧ exit_status (main Toy.libs "in" "out" Sample.no_cel_world).2 = 1%Z.
Proof. vm_compute. done. Qed.

(** With droplet shards only, the other three kinds have no shard and the
    run ends normally: empty SNP and UMI files, no variant file. *)
Example only_droplet_shards_run :
  let w := mkWorld {["in.0.pileup.cel.gz" := Toy.gzip_compress [x00; x01]]} [] in
  (main Toy.libs "in" "out" w).2 = Ok ()
  ∧ fs (main Toy.libs "in" "out" w).1 !! "out.pileup.plp.gz"
    = Some (Toy.gzip_compress [])
  ∧ fs (main Toy.libs "in" "out" w).1 !! "out.pileup.umi.gz"
    = Some (Toy.gzip_compress [])
  ∧ fs (main Toy.libs "in" "out" w).1 !! "out.pileup.var.gz" = None.
Proof. vm_compute. done. Qed.

(** ** What a run touches *)

Section Confined.
Context (paths : list string) (E : Exn → Prop).

Lemma touches_only_refl w : touches_only paths w w.
Proof. by split_and!. Qed.

Lemma touches_only_trans w1 w2 w3 :
  touches_only paths w1 w2 → touches_only paths w2 w3 → touches_only paths w1 w3.
Proof.
  intros (Hf1 & Hd1 & Hs1) (Hf2 & Hd2 & Hs2). split_and!.
  - intros p Hp. by rewrite Hf2, Hf1.
  - intros p Hp. by apply Hd2, Hd1.
  - by etrans.
Qed.

Lemma confined_ret {A} (a : A) : confined paths E (ret a).
Proof. intros w. split; [apply touches_only_refl|done]. Qed.

Lemma confined_mret {A} (a : A) : confined paths E (mret a).
Proof. apply confined_ret. Qed.

Lemma confined_bind {A B} (m : M A) (k : A → M B) :
  confined paths E m → (∀ a, confined paths E (k a)) →
  confined paths E (m ≫= k).
Proof.
  intros Hm Hk w. unfold mbind, M_bind, bind.
  destruct (Hm w) as [Ht He]. destruct (m w) as [w1 [a|e]]; simpl in *.
  - destruct (Hk a w1) as [Ht' He']. split; [|done].
    by eapply touches_only_trans.
  - split; [done|]. intros e' [= <-]. by apply He.
Qed.

Lemma confined_lift {A} (r : res A) :
  (∀ e, r = Raise e → E e) → confined paths E (lift r).
Proof. intros Hr w. split; [apply touches_only_refl|done]. Qed.

Lemma confined_raise {A} e : E e → confined paths E (raise (A:=A) e).
Proof.
  intros He w. split; [apply touches_only_refl|]. by intros e' [= <-].
Qed.

Lemma confined_eprint line : confined paths E (eprint line).
Proof.
  intros w. split; [|done]. split_and!; [done..|]. by apply prefix_app_r.
Qed.

Lemma confined_path_exists path : confined paths E (path_exists path).
Proof. intros w. split; [apply touches_only_refl|done]. Qed.

Lemma confined_read_bytes path :
  E (OSError path) → confined paths E (read_bytes path).
Proof.
  intros He w. unfold read_bytes.
  destruct (fs w !! path); (split; [apply touches_only_refl|]); [done|].
  by intros e [= <-].
Qed.

Lemma confined_write_bytes path content :
  path ∈ paths → confined paths E (write_bytes path content).
Proof.
  intros Hin w. split; [|done]. split_and!; simpl; [| |done].
  - intros p Hp. apply lookup_insert_ne. by intros ->.
  - intros p Hp. destruct (decide (path = p)) as [->|Hne].
    + by rewrite lookup_insert_eq.
    + by rewrite lookup_insert_ne.
Qed.

Lemma confined_for_each {A S} (body : S → A → M S) xs :
  (∀ s x, confined paths E (body s x)) →
  ∀ s, confined paths E (for_each body xs s).
Proof.
  intros Hbody. induction xs as [|x xs IH]; intros s; simpl.
  - apply confined_ret.
  - apply confined_bind; [apply Hbody|apply IH].
Qed.

Lemma confined_glob_parts L prefix suffix :
  confined paths E (glob_parts L prefix suffix).
Proof. intros w. split; [apply touches_only_refl|done]. Qed.

Lemma confined_read_with {A} (reader : list byte → option A) path :
  E (OSError path) → E (PolarsError path) →
  confined paths E (read_with reader path).
Proof.
  intros Ho Hp. unfold read_with. apply confined_bind.
  - by apply confined_read_bytes.
  - intros content. destruct (reader content).
    + apply confined_ret.
    + by apply confined_raise.
Qed.

Lemma confined_gzip_write L path content :
  path ∈ paths → confined paths E (gzip_write L path content).
Proof. apply confined_write_bytes. Qed.

End Confined.

Lemma var_step_raises st filename df e :
  var_step st filename df = Raise e → no_exit e.
Proof.
  intros H code ->. destruct st as [[most_complete name]|]; [|done].
  unfold var_step in H. case_decide; [|done].
  unfold var_assert in H.
  destruct (item _) as [[|]|e] eqn:Hitem; simpl in H; [done..|].
  injection H as ->. unfold item in Hitem. by repeat case_match.
Qed.

Lemma umi_lines_raises lines :
  ∀ out n e, (umi_lines lines out n).2 = Raise e → e = index_error.
Proof.
  induction lines as [|line lines IH]; intros out n e; simpl; [done|].
  unfold umi_line. destruct (split_tab_1 line).2; [apply IH|].
  simpl. by intros [= <-].
Qed.

Ltac confine :=
  repeat first
    [ apply confined_ret | apply confined_mret
    | apply confined_eprint | apply confined_path_exists
    | apply confined_glob_parts
    | apply confined_read_with; by intros ?
    | apply confined_gzip_write; by apply list_elem_of_singleton
    | apply confined_write_bytes; by apply list_elem_of_singleton
    | apply confined_read_bytes; by intros ?
    | apply confined_bind; [|intros ?] ].

(** The droplet merge touches its destination only. *)
Lemma cel_confined (L : Libs) prefix out :
  confined [out +:+ cel_suffix] no_exit
    (write_popscle_pileup_cel_full_filename L prefix out).
Proof.
  unfold write_popscle_pileup_cel_full_filename.
  apply confined_bind; [apply confined_path_exists|intros ex].
  destruct ex; [confine|].
  apply confined_bind; [apply confined_glob_parts|intros parts].
  apply confined_bind.
  - apply confined_for_each. intros dfs [i name]. unfold cel_read_part. confine.
  - intros dfs. apply confined_bind; [|intros df; confine].
    apply confined_lift. intros e He code ->.
    unfold pl_concat in He. by destruct dfs.
Qed.

Lemma plp_confined (L : Libs) df prefix out :
  confined [out +:+ plp_suffix] no_exit
    (write_popscle_pileup_plp_full_filename L df prefix out).
Proof.
  unfold write_popscle_pileup_plp_full_filename.
  apply confined_bind; [apply confined_path_exists|intros ex].
  destruct ex; [confine|].
  apply confined_bind; [confine|intros _].
  apply confined_bind; [confine|intros _].
  apply confined_bind; [apply confined_glob_parts|intros parts].
  apply confined_bind; [|intros; apply confined_ret].
  apply confined_for_each. intros written [i name]. unfold plp_write_part.
  confine.
Qed.

Lemma umi_confined (L : Libs) prefix out :
  confined [out +:+ umi_suffix] no_exit
    (write_popscle_pileup_umi_full_filename L prefix out).
Proof.
  unfold write_popscle_pileup_umi_full_filename.
  apply confined_bind; [apply confined_path_exists|intros ex].
  destruct ex; [confine|].
  apply confined_bind; [confine|intros _].
  apply confined_bind; [confine|intros _].
  apply confined_bind; [apply confined_glob_parts|intros parts].
  apply confined_bind; [|intros; apply confined_ret].
  apply confined_for_each. intros st name. unfold umi_write_part.
  apply confined_bind; [apply confined_eprint|intros _].
  apply confined_bind; [apply confined_read_with; by intros ?|intros lines].
  destruct (umi_lines lines st.1 st.2) as [out' r] eqn:Hlines.
  apply confined_bind; [confine|intros _].
  apply confined_bind; [|intros; apply confined_ret].
  apply confined_lift. intros e -> code ->.
  by pose proof (umi_lines_raises _ _ _ _ (f_equal snd Hlines)).
Qed.

Lemma var_confined (L : Libs) prefix out :
  confined [out +:+ var_suffix] no_exit
    (write_popscle_pileup_var_full_filename L prefix out).
Proof.
  unfold write_popscle_pileup_var_full_filename.
  apply confined_bind; [apply confined_path_exists|intros ex].
  destruct ex; [confine|].
  apply confined_bind; [apply confined_glob_parts|intros parts].
  apply confined_bind.
  - apply confined_for_each. intros st name. unfold var_read_part. confine.
    apply confined_lift. intros e. apply var_step_raises.
  - intros st. destruct (truthy (snd <$> st)); [|confine].
    unfold copy2. confine.
Qed.

(** ** A destination that is present *)

Lemma cel_refuses (L : Libs) prefix out w :
  is_Some (fs w !! (out +:+ cel_suffix)) →
  write_popscle_pileup_cel_full_filename L prefix out w
  = (printed w [msg_exists "CEL" (out +:+ cel_suffix)], Ok None).
Proof.
  intros Hex. unfold write_popscle_pileup_cel_full_filename,
    mbind, M_bind, bind, path_exists.
  by rewrite bool_decide_eq_true_2.
Qed.

Lemma plp_refuses (L : Libs) df prefix out w :
  is_Some (fs w !! (out +:+ plp_suffix)) →
  write_popscle_pileup_plp_full_filename L df prefix out w
  = (printed w [msg_exists "PLP" (out +:+ plp_suffix)], Ok false).
Proof.
  intros Hex. unfold write_popscle_pileup_plp_full_filename,
    mbind, M_bind, bind, path_exists.
  by rewrite bool_decide_eq_true_2.
Qed.

Lemma umi_refuses (L : Libs) prefix out w :
  is_Some (fs w !! (out +:+ umi_suffix)) →
  write_popscle_pileup_umi_full_filename L prefix out w
  = (printed w [msg_exists "UMI" (out +:+ umi_suffix)], Ok false).
Proof.
  intros Hex. unfold write_popscle_pileup_umi_full_filename,
    mbind, M_bind, bind, path_exists.
  by rewrite bool_decide_eq_true_2.
Qed.

Lemma var_refuses (L : Libs) prefix out w :
  is_Some (fs w !! (out +:+ var_suffix)) →
  write_popscle_pileup_var_full_filename L prefix out w
  = (printed w [msg_exists "VAR" (out +:+ var_suffix)], Ok false).
Proof.
  intros Hex. unfold write_popscle_pileup_var_full_filename,
    mbind, M_bind, bind, path_exists.
  by rewrite bool_decide_eq_true_2.
Qed.

(** X1. Each of the four procedures checks its own destination first: when
    it is present, the droplet merge returns [None] and the other three
    return [False], one error line is printed, and nothing else happens:
    the files are as before and no shard is looked for or read. *)
Theorem procedures_refuse_existing_destination (L : Libs) df prefix out w :
  (is_Some (fs w !! (out +:+ cel_suffix)) →
   write_popscle_pileup_cel_full_filename L prefix out w
   = (printed w [msg_exists "CEL" (out +:+ cel_suffix)], Ok None))
  ∧ (is_Some (fs w !! (out +:+ plp_suffix)) →
     write_popscle_pileup_plp_full_filename L df prefix out w
     = (printed w [msg_exists "PLP" (out +:+ plp_suffix)], Ok false))
  ∧ (is_Some (fs w !! (out +:+ umi_suffix)) →
     write_popscle_pileup_umi_full_filename L prefix out w
     = (printed w [msg_exists "UMI" (out +:+ umi_suffix)], Ok false))
  ∧ (is_Some (fs w !! (out +:+ var_suffix)) →
     write_popscle_pileup_var_full_filename L prefix out w
     = (printed w [msg_exists "VAR" (out +:+ var_suffix)], Ok false)).
Proof.
  split_and!.
  - apply cel_refuses.
  - apply plp_refuses.
  - apply umi_refuses.
  - apply var_refuses.
Qed.

Lemma procedures_refuse_existing_destination_witness :
  write_popscle_pileup_cel_full_filename Toy.libs "in" "out" Sample.done_world
  = (printed Sample.done_world [msg_exists "CEL" ("out" +:+ cel_suffix)], Ok None)
  ∧ write_popscle_pileup_plp_full_filename Toy.libs Sample.cel_df "in" "out"
      Sample.done_world
    = (printed Sample.done_world [msg_exists "PLP" ("out" +:+ plp_suffix)],
       Ok false)
  ∧ write_popscle_pileup_umi_full_filename Toy.libs "in" "out" Sample.done_world
    = (printed Sample.done_world [msg_exists "UMI" ("out" +:+ umi_suffix)],
       Ok false)
  ∧ write_popscle_pileup_var_full_filename Toy.libs "in" "out" Sample.done_world
    = (printed Sample.done_world [msg_exists "VAR" ("out" +:+ var_suffix)],
       Ok false).
Proof.
  destruct (procedures_refuse_existing_destination Toy.libs Sample.cel_df
              "in" "out" Sample.done_world) as (Hcel & Hplp & Humi & Hvar).
  split_and!.
  - apply Hcel. apply (bool_decide_unpack _). vm_compute. reflexivity.
  - apply Hplp. apply (bool_decide_unpack _). vm_compute. reflexivity.
  - apply Humi. apply (bool_decide_unpack _). vm_compute. reflexivity.
  - apply Hvar. apply (bool_decide_unpack _). vm_compute. reflexivity.
Defined.



(** A procedure that touches its destination only, and nothing at all when
    the destination is present, keeps every file. *)
Lemma confined_safe_for {A} (dest : string) (m : M A) :
  confined [dest] no_exit m →
  (∀ w, is_Some (fs w !! dest) → fs (m w).1 = fs w) →
  safe_for dest m.
Proof.
  intros Hconf Hrefuse w. destruct (Hconf w) as [Htouch Hexit].
  split_and!; [done| |].
  - intros p c Hp. destruct (decide (p = dest)) as [->|Hne].
    + by rewrite Hrefuse.
    + destruct Htouch as (Hframe & _). rewrite Hframe; [done|].
      by intros ->%list_elem_of_singleton.
  - intros code Hr. by apply (Hexit _ Hr code).
Qed.

Lemma cel_safe (L : Libs) prefix out :
  safe_for (out +:+ cel_suffix)
    (write_popscle_pileup_cel_full_filename L prefix out).
Proof.
  apply confined_safe_for; [apply cel_confined|].
  intros w Hex. by rewrite cel_refuses.
Qed.

Lemma plp_safe (L : Libs) df prefix out :
  safe_for (out +:+ plp_suffix)
    (write_popscle_pileup_plp_full_filename L df prefix out).
Proof.
  apply confined_safe_for; [apply plp_confined|].
  intros w Hex. by rewrite plp_refuses.
Qed.

Lemma umi_safe (L : Libs) prefix out :
  safe_for (out +:+ umi_suffix)
    (write_popscle_pileup_umi_full_filename L prefix out).
Proof.
  apply confined_safe_for; [apply umi_confined|].
  intros w Hex. by rewrite umi_refuses.
Qed.

Lemma var_safe (L : Libs) prefix out :
  safe_for (out +:+ var_suffix)
    (write_popscle_pileup_var_full_filename L prefix out).
Proof.
  apply confined_safe_for; [apply var_confined|].
  intros w Hex. by rewrite var_refuses.
Qed.

(** X2. Whatever the files and the libraries, and whether it returns or
    raises, each of the four procedures writes to no path but its own
    destination, deletes nothing, leaves every file that was present
    before the call with its content (so it never overwrites), only adds
    to the diagnostic stream, and does not end the process itself. *)
Theorem procedures_keep_existing_files (L : Libs) df prefix out :
  safe_for (out +:+ cel_suffix)
    (write_popscle_pileup_cel_full_filename L prefix out)
  ∧ safe_for (out +:+ plp_suffix)
      (write_popscle_pileup_plp_full_filename L df prefix out)
  ∧ safe_for (out +:+ umi_suffix)
      (write_popscle_pileup_umi_full_filename L prefix out)
  ∧ safe_for (out +:+ var_suffix)
      (write_popscle_pileup_var_full_filename L prefix out).
Proof.
  split_and!.
  - apply cel_safe.
  - apply plp_safe.
  - apply umi_safe.
  - apply var_safe.
Qed.

(** ** The whole run *)








Lemma bind_Ok_inv {A B} (m : M A) (k : A → M B) w w' b :
  (m ≫= k) w = (w', Ok b) →
  ∃ a w1, m w = (w1, Ok a) ∧ k a w1 = (w', Ok b).
Proof.
  unfold mbind, M_bind, bind. destruct (m w) as [w1 [a|e]]; [|done].
  intros H. by exists a, w1.
Qed.

Lemma confined_nil_fs {A} E (m : M A) w :
  confined [] E m → fs (m w).1 = fs w.
Proof.
  intros Hconf. destruct (Hconf w) as [(Hframe & _) _].
  apply map_eq. intros p. apply Hframe, not_elem_of_nil.
Qed.


(** The droplet merge with a free destination, after its loop. *)
Lemma cel_after_loop (L : Libs) prefix out w :
  fs w !! (out +:+ cel_suffix) = None →
  write_popscle_pileup_cel_full_filename L prefix out w
  = match for_each (cel_read_part L)
            (enumerate (sorted_glob L (fs w) (prefix +:+ ".*" +:+ cel_suffix)))
            [] w with
    | (w1, Raise e) => (w1, Raise e)
    | (w1, Ok []) => (w1, Raise (ValueError "cannot concat empty list"))
    | (w1, Ok dfs) =>
        (mkWorld
           (<[out +:+ cel_suffix :=
                gzip_compress L
                  (write_csv_cel L true
                     (cel_select <$> with_row_count (concat dfs)))]> (fs w1))
           (stderr w1 ++ [msg_writing "PLP" (out +:+ cel_suffix)]),
         Ok (Some (with_row_count (concat dfs))))
    end.
Proof.
  intros Hdest. unfold write_popscle_pileup_cel_full_filename.
  unfold mbind at 1, M_bind at 1, bind at 1, path_exists at 1.
  rewrite Hdest, bool_decide_eq_false_2 by (by intros [? ?]).
  unfold mbind at 1, M_bind at 1, bind at 1, glob_parts at 1.
  unfold mbind at 1, M_bind at 1, bind at 1.
  destruct (for_each _ _ _ w) as [w1 [dfs|e]]; [|done].
  unfold mbind at 1, M_bind at 1, bind at 1, lift at 1, pl_concat.
  destruct dfs as [|d dfs]; [done|]. cbn [res_bind].
  unfold mbind, M_bind, bind, gzip_write, write_bytes, eprint, ret.
  cbn [fs stderr]. by rewrite insert_insert_eq.
Qed.


(** The loop of the variant reconciliation writes nothing. *)
Lemma var_loop_fs (L : Libs) names st w :
  fs (for_each (var_read_part L) names st w).1 = fs w.
Proof.
  apply (confined_nil_fs (λ _, True)). apply confined_for_each.
  intros s name. unfold var_read_part.
  apply confined_bind; [apply confined_eprint|intros _].
  apply confined_bind; [by apply confined_read_with|intros df].
  by apply confined_lift.
Qed.

(** The candidate the loop ends with is the one it started with or comes
    from one of the files it was given. *)
Lemma var_loop_name (L : Libs) names :
  ∀ st w w1 df name,
  for_each (var_read_part L) names st w = (w1, Ok (Some (df, name))) →
  st = Some (df, name) ∨ name ∈ names.
Proof.
  induction names as [|n names IH]; intros st w w1 df name Hrun.
  - left. simpl in Hrun. unfold ret in Hrun. by injection Hrun.
  - simpl in Hrun. apply bind_Ok_inv in Hrun as (st' & w2 & Hstep & Hrest).
    destruct (IH _ _ _ _ _ Hrest) as [->|Hin]; [|right; by right].
    unfold var_read_part in Hstep.
    apply bind_Ok_inv in Hstep as ([] & w3 & _ & Hstep).
    apply bind_Ok_inv in Hstep as (d & w4 & _ & Hstep).
    unfold lift in Hstep. injection Hstep as _ Hstep.
    destruct st as [[most_complete mname]|].
    + apply var_step_Ok in Hstep as [[_ Hst]|[_ Hst]].
      * by left.
      * right. injection Hst as _ ->. left.
    + right. simpl in Hstep. injection Hstep as _ ->. left.
Qed.

(** X9. The variant reconciliation writes only when it returns [True],
    and then only by the copy: the destination was free, one of the shards
    the glob found is the winner, and the files afterwards are the files
    before with the winner's bytes at the destination.  In every other case
    (destination present, no shard, unreadable shard, failed assertion) the
    files are exactly as they were. *)
Theorem variant_reconciliation_outcome (L : Libs) prefix out w :
  match (write_popscle_pileup_var_full_filename L prefix out w).2 with
  | Ok true =>
      fs w !! (out +:+ var_suffix) = None
      ∧ ∃ winner content,
          winner ∈ sorted_glob L (fs w) (prefix +:+ ".*" +:+ var_suffix)
          ∧ fs w !! winner = Some content
          ∧ fs (write_popscle_pileup_var_full_filename L prefix out w).1
            = <[out +:+ var_suffix := content]> (fs w)
  | _ => fs (write_popscle_pileup_var_full_filename L prefix out w).1 = fs w
  end.
Proof.
  destruct (fs w !! (out +:+ var_suffix)) as [c|] eqn:Hdest.
  { by rewrite var_refuses. }
  destruct (write_popscle_pileup_var_full_filename L prefix out w)
    as [w' r] eqn:Hrun.
  unfold write_popscle_pileup_var_full_filename in Hrun.
  unfold mbind at 1, M_bind at 1, bind at 1, path_exists at 1 in Hrun.
  rewrite Hdest, bool_decide_eq_false_2 in Hrun by (by intros [? ?]).
  unfold mbind at 1, M_bind at 1, bind at 1, glob_parts at 1 in Hrun.
  unfold mbind at 1, M_bind at 1, bind at 1 in Hrun.
  set (names := sorted_glob L (fs w) (prefix +:+ ".*" +:+ var_suffix)) in *.
  pose proof (var_loop_fs L names None w) as Hfs.
  pose proof (var_loop_name L names None w) as Hname.
  destruct (for_each (var_read_part L) names None w) as [w1 [st|e]];
    simpl in Hfs; [|by injection Hrun as <- <-].
  destruct st as [[df winner]|]; simpl in Hrun;
    [|by injection Hrun as <- <-].
  destruct (String.eqb winner EmptyString); simpl in Hrun;
    [by injection Hrun as <- <-|].
  unfold mbind, M_bind, bind, eprint, copy2, read_bytes, write_bytes in Hrun.
  simpl in Hrun. unfold mbind, M_bind, bind in Hrun. simpl in Hrun.
  rewrite Hfs in Hrun.
  destruct (fs w !! winner) as [content|] eqn:Hwinner; simpl in Hrun;
    injection Hrun as <- <-; simpl; [|done].
  split; [done|]. exists winner, content. split_and!; [|done..].
  by destruct (Hname w1 df winner eq_refl).
Qed.

(** Once a step has made a file, the steps after it, which delete nothing,
    leave it in place however they end. *)
Lemma created_stays {A B} paths E (m : M A) (k : A → M B) dest w :
  is_Some (fs (m w).1 !! dest) →
  (∀ a, confined paths E (k a)) →
  is_Some (fs ((m ≫= k) w).1 !! dest).
Proof.
  intros Hm Hk. unfold mbind, M_bind, bind.
  destruct (m w) as [w1 [a|e]]; [|done].
  destruct (Hk a w1) as [(_ & Hdom & _) _]. by apply Hdom.
Qed.

(** However the SNP merge ends, its destination is there afterwards: it is
    opened before any shard is looked for. *)
Lemma plp_dest_after (L : Libs) df prefix out w :
  is_Some (fs (write_popscle_pileup_plp_full_filename L df prefix out w).1
           !! (out +:+ plp_suffix)).
Proof.
  destruct (fs w !! (out +:+ plp_suffix)) as [c|] eqn:Hdest.
  { by rewrite plp_refuses. }
  unfold write_popscle_pileup_plp_full_filename.
  unfold mbind at 1, M_bind at 1, bind at 1, path_exists at 1.
  rewrite Hdest, bool_decide_eq_false_2 by (by intros [? ?]).
  apply (created_stays [out +:+ plp_suffix] no_exit).
  - simpl. by rewrite lookup_insert_eq.
  - intros _.
    apply confined_bind; [confine|intros _].
    apply confined_bind; [apply confined_glob_parts|intros parts].
    apply confined_bind; [|intros; apply confined_ret].
    apply confined_for_each. intros written [i name]. unfold plp_write_part.
    confine.
Qed.

Lemma umi_dest_after (L : Libs) prefix out w :
  is_Some (fs (write_popscle_pileup_umi_full_filename L prefix out w).1
           !! (out +:+ umi_suffix)).
Proof.
  destruct (fs w !! (out +:+ umi_suffix)) as [c|] eqn:Hdest.
  { by rewrite umi_refuses. }
  unfold write_popscle_pileup_umi_full_filename.
  unfold mbind at 1, M_bind at 1, bind at 1, path_exists at 1.
  rewrite Hdest, bool_decide_eq_false_2 by (by intros [? ?]).
  apply (created_stays [out +:+ umi_suffix] no_exit).
  - simpl. by rewrite lookup_insert_eq.
  - intros _.
    apply confined_bind; [confine|intros _].
    apply confined_bind; [apply confined_glob_parts|intros parts].
    apply confined_bind; [|intros; apply confined_ret].
    apply confined_for_each. intros st name. unfold umi_write_part.
    apply confined_bind; [apply confined_eprint|intros _].
    apply confined_bind; [apply confined_read_with; by intros ?|intros lines].
    destruct (umi_lines lines st.1 st.2) as [out' r] eqn:Hlines.
    apply confined_bind; [confine|intros _].
    apply confined_bind; [|intros; apply confined_ret].
    apply confined_lift. intros e -> code ->.
    by pose proof (umi_lines_raises _ _ _ _ (f_equal snd Hlines)).
Qed.

Lemma cel_dest_after (L : Libs) prefix out w w' df :
  write_popscle_pileup_cel_full_filename L prefix out w = (w', Ok (Some df)) →
  is_Some (fs w' !! (out +:+ cel_suffix)).
Proof.
  intros Hrun.
  destruct (fs w !! (out +:+ cel_suffix)) as [c|] eqn:Hdest.
  { by rewrite cel_refuses in Hrun. }
  rewrite (cel_after_loop L prefix out w Hdest) in Hrun.
  destruct (for_each _ _ _ w) as [w1 [[|d dfs]|e]]; [done| |done].
  injection Hrun as <- _. simpl. by rewrite lookup_insert_eq.
Qed.

Lemma keeps_is_Some w w' p :
  keeps w w' → is_Some (fs w !! p) → is_Some (fs w' !! p).
Proof. intros Hk [c Hc]. exists c. by apply Hk. Qed.

(** X4. A run that ends normally started with no destination present and
    leaves the droplet, SNP and UMI destinations in place (the variant
    destination only if a variant shard was found); a second run with the
    same output prefix is therefore refused: it prints the error lines,
    changes no file and exits with status 1.  A merge is one-shot. *)
Theorem main_is_one_shot (L : Libs) prefix out w w' :
  main L prefix out w = (w', Ok ()) →
  reports (fs w) out = []
  ∧ is_Some (fs w' !! (out +:+ cel_suffix))
  ∧ is_Some (fs w' !! (out +:+ plp_suffix))
  ∧ is_Some (fs w' !! (out +:+ umi_suffix))
  ∧ main L prefix out w'
    = (printed w' (reports (fs w') out), Raise (SystemExit 1))
  ∧ exit_status (main L prefix out w').2 = 1%Z.
Proof.
  intros Hmain. rewrite main_eq in Hmain.
  destruct (reports (fs w) out) as [|line lines] eqn:Hrep; [|done].
  unfold main_merge in Hmain.
  apply bind_Ok_inv in Hmain as (r & w1 & Hcel & Hmain).
  destruct r as [df|]; [|done].
  apply bind_Ok_inv in Hmain as (b1 & w2 & Hplp & Hmain).
  apply bind_Ok_inv in Hmain as (b2 & w3 & Humi & Hmain).
  apply bind_Ok_inv in Hmain as (b3 & w4 & Hvar & Hmain).
  unfold ret in Hmain. injection Hmain as ->.
  pose proof (cel_dest_after L prefix out w w1 df Hcel) as Hc1.
  pose proof (plp_dest_after L df prefix out w1) as Hp2. rewrite Hplp in Hp2.
  pose proof (umi_dest_after L prefix out w2) as Hu3. rewrite Humi in Hu3.
  destruct (plp_safe L df prefix out w1) as (_ & Hk12 & _). rewrite Hplp in Hk12.
  destruct (umi_safe L prefix out w2) as (_ & Hk23 & _). rewrite Humi in Hk23.
  destruct (var_safe L prefix out w3) as (_ & Hk34 & _). rewrite Hvar in Hk34.
  simpl in *.
  assert (is_Some (fs w' !! (out +:+ cel_suffix))) as Hcel'.
  { by eapply keeps_is_Some, keeps_is_Some, keeps_is_Some. }
  assert (main L prefix out w'
          = (printed w' (reports (fs w') out), Raise (SystemExit 1))) as Hrerun.
  { rewrite main_eq.
    pose proof (reports_complete (fs w') out ("CEL", out +:+ cel_suffix)) as Hin.
    destruct (reports (fs w') out); [|done].
    exfalso. eapply elem_of_nil, Hin; [left|done]. }
  split_and!; [done|done| | |done|by rewrite Hrerun].
  - by eapply keeps_is_Some, keeps_is_Some.
  - by eapply keeps_is_Some.
Qed.

Lemma main_is_one_shot_witness :
  reports (fs Sample.world) "out" = []
  ∧ is_Some (fs (main Toy.libs "in" "out" Sample.world).1 !! ("out" +:+ cel_suffix))
  ∧ is_Some (fs (main Toy.libs "in" "out" Sample.world).1 !! ("out" +:+ plp_suffix))
  ∧ is_Some (fs (main Toy.libs "in" "out" Sample.world).1 !! ("out" +:+ umi_suffix))
  ∧ main Toy.libs "in" "out" (main Toy.libs "in" "out" Sample.world).1
    = (printed (main Toy.libs "in" "out" Sample.world).1
         (reports (fs (main Toy.libs "in" "out" Sample.world).1) "out"),
       Raise (SystemExit 1))
  ∧ exit_status
      (main Toy.libs "in" "out" (main Toy.libs "in" "out" Sample.world).1).2
    = 1%Z.
Proof.
  apply (main_is_one_shot Toy.libs "in" "out" Sample.world).
  vm_compute. reflexivity.
Defined.

(** ** Global ids, shard by shard *)

Lemma concat_lookup_offset {A} (l : list (list A)) :
  ∀ i xs j x,
  l !! i = Some xs → xs !! j = Some x →
  concat l !! (shard_offset l i + j) = Some x.
Proof.
  unfold shard_offset.
  induction l as [|xs0 l IH]; intros i xs j x Hi Hj; [done|].
  destruct i as [|i]; simpl in *.
  - injection Hi as ->. by apply lookup_app_l_Some.
  - rewrite <- Nat.add_assoc, lookup_app_r by lia.
    match goal with
    | |- context [?a + ?b - ?a] => replace (a + b - a) with b by lia
    end.
    by eapply IH.
Qed.

Lemma cel_parts_lengths shards :
  length <$> cel_parts shards = length <$> shards.
Proof.
  unfold cel_parts. rewrite fmap_imap.
  rewrite <- (imap_const length shards). apply imap_ext.
  intros i rows _. simpl. apply length_fmap.
Qed.

Lemma cel_parts_offset shards i :
  shard_offset (cel_parts shards) i = shard_offset shards i.
Proof. unfold shard_offset. by rewrite cel_parts_lengths. Qed.

Lemma elem_of_concat {A} (x : A) (ls : list (list A)) :
  x ∈ concat ls ↔ ∃ l, x ∈ l ∧ l ∈ ls.
Proof.
  induction ls as [|l0 ls IH]; simpl.
  - split; [by intros ?%elem_of_nil|]. by intros (l & _ & ?%elem_of_nil).
  - rewrite elem_of_app, IH. split.
    + intros [H|(l & Hx & Hl)]; [exists l0; split; [done|left]|].
      exists l. split; [done|by right].
    + intros (l & Hx & [->|Hl]%elem_of_cons); [by left|].
      right. by exists l.
Qed.

Lemma elem_of_concat_cel_parts shards p :
  p ∈ concat (cel_parts shards)
  ↔ ∃ i rows r, shards !! i = Some rows ∧ r ∈ rows ∧ p = cel_tag i r.
Proof.
  rewrite elem_of_concat. unfold cel_parts. split.
  - intros (part & Hp & Hpart).
    apply elem_of_lookup_imap in Hpart as (i & rows & -> & Hrows).
    apply list_elem_of_fmap in Hp as (r & -> & Hr). by exists i, rows, r.
  - intros (i & rows & r & Hrows & Hr & ->).
    exists (cel_tag i <$> rows). split; [by apply list_elem_of_fmap_2|].
    apply elem_of_lookup_imap. by exists i, rows.
Qed.

(** When the droplet merge returns a table, it is [cel_merge] of the shards
    as they parse. *)
Lemma cel_returns_merge (L : Libs) prefix out w w' df shards :
  Forall2 (readable (read_csv_cel L) (fs w))
    (sorted_glob L (fs w) (prefix +:+ ".*" +:+ cel_suffix)) shards →
  write_popscle_pileup_cel_full_filename L prefix out w = (w', Ok (Some df)) →
  cel_merge shards = Ok df.
Proof.
  intros Hread Hrun.
  destruct (fs w !! (out +:+ cel_suffix)) as [c|] eqn:Hdest.
  { by rewrite cel_refuses in Hrun. }
  rewrite (cel_run L prefix out w shards Hdest Hread) in Hrun.
  destruct (cel_merge shards) as [df'|e]; [|done]. by injection Hrun as _ ->.
Qed.

Lemma cel_merge_lookup shards df i rows j r :
  cel_merge shards = Ok df →
  shards !! i = Some rows → rows !! j = Some r →
  df !! (shard_offset shards i + j)
  = Some (mkCelFull (shard_offset shards i + j) (cel_tag i r)).
Proof.
  intros Hdf Hi Hj.
  destruct (cel_merge_ids shards df Hdf) as (Hparts & _ & Hpos).
  assert (concat (cel_parts shards) !! (shard_offset shards i + j)
          = Some (cel_tag i r)) as Hk.
  { rewrite <- (cel_parts_offset shards i).
    apply (concat_lookup_offset _ i (cel_tag i <$> rows)).
    - unfold cel_parts. by rewrite list_lookup_imap, Hi.
    - by rewrite list_lookup_fmap, Hj. }
  rewrite <- Hparts, list_lookup_fmap in Hk.
  destruct (df !! (shard_offset shards i + j)) as [c|] eqn:Hc; [|done].
  simpl in Hk. injection Hk as Hk. apply Hpos in Hc.
  destruct c as [id part]. simpl in *. by subst.
Qed.

(** X5. When the droplet merge returns a table for shards that parse, row
    [j] of shard [i] is at position (rows of the shards before [i]) + [j] of
    the table, with that position as its DROPLET_ID, [i] as its PARTITION
    and its own id as DROPLET_ID_PARTITIONED: every shard gets a contiguous
    block of global ids, in shard order. *)
Theorem droplet_ids_by_shard (L : Libs) prefix out w w' df shards i rows j r :
  Forall2 (readable (read_csv_cel L) (fs w))
    (sorted_glob L (fs w) (prefix +:+ ".*" +:+ cel_suffix)) shards →
  write_popscle_pileup_cel_full_filename L prefix out w = (w', Ok (Some df)) →
  shards !! i = Some rows →
  rows !! j = Some r →
  df !! (shard_offset shards i + j)
  = Some (mkCelFull (shard_offset shards i + j) (cel_tag i r)).
Proof.
  intros Hread Hrun. apply cel_merge_lookup.
  by eapply cel_returns_merge.
Qed.

Lemma droplet_ids_by_shard_witness :
  Sample.cel_df !! (shard_offset Sample.cel_shards 1 + 2)
  = Some (mkCelFull (shard_offset Sample.cel_shards 1 + 2)
            (cel_tag 1 (Toy.cel_row x02))).
Proof.
  apply (droplet_ids_by_shard Toy.libs "in" "out" Sample.world
           (write_popscle_pileup_cel_full_filename Toy.libs "in" "out"
              Sample.world).1
           Sample.cel_df Sample.cel_shards 1 (Toy.cel_row <$> [x00; x01; x02])
           2 (Toy.cel_row x02)).
  - replace (sorted_glob Toy.libs (fs Sample.world) ("in" +:+ ".*" +:+ cel_suffix))
      with ["in.0.pileup.cel.gz"; "in.1.pileup.cel.gz"; "in.2.pileup.cel.gz"]
      by (vm_compute; reflexivity).
    repeat constructor; eexists; split; vm_compute; reflexivity.
  - vm_compute. reflexivity.
  - reflexivity.
  - reflexivity.
Defined.

(** ** The keys of the correction table *)

Lemma tagged_first_ge {A B} (f : A → B) (shards : list (list A)) :
  ∀ n x,
  x ∈ concat (imap (λ i rows, (λ r, (n + i, f r)) <$> rows) shards) →
  n ≤ x.1.
Proof.
  intros n x (part & Hx & Hpart)%elem_of_concat.
  apply elem_of_lookup_imap in Hpart as (i & rows & -> & _).
  apply list_elem_of_fmap in Hx as (r & -> & _). simpl. lia.
Qed.

(** Rows tagged with the index of their shard are pairwise distinct exactly
    when no shard repeats a value. *)
Lemma NoDup_tagged {A B} (f : A → B) (shards : list (list A)) :
  ∀ n,
  NoDup (concat (imap (λ i rows, (λ r, (n + i, f r)) <$> rows) shards))
  ↔ Forall (λ rows, NoDup (f <$> rows)) shards.
Proof.
  induction shards as [|rows shards IH]; intros n.
  - split; [constructor|]. intros _. simpl. constructor.
  - assert (imap ((λ i rows0, (λ r, (n + i, f r)) <$> rows0) ∘ S) shards
            = imap (λ i rows0, (λ r, (S n + i, f r)) <$> rows0) shards) as Htail.
    { apply imap_ext. intros i x _. simpl. apply list_fmap_ext.
      intros _ r _. f_equal. lia. }
    cbn [imap concat]. rewrite Htail, NoDup_app, Forall_cons, IH.
    assert ((λ r, (n + 0, f r)) <$> rows = pair (n + 0) <$> (f <$> rows)) as ->.
    { by rewrite <- list_fmap_compose. }
    rewrite (NoDup_fmap (pair (n + 0))). split.
    + intros (? & _ & ?). done.
    + intros [? ?]. split_and!; [done| |done].
      intros x Hx Hx'. apply tagged_first_ge in Hx'.
      apply list_elem_of_fmap in Hx as (b & -> & _). simpl in Hx'. lia.
Qed.

Lemma cel_merge_keys shards df :
  cel_merge shards = Ok df →
  cel_key <$> df
  = concat (imap (λ i rows, (λ r, (0 + i, cel_DROPLET_ID r)) <$> rows) shards).
Proof.
  intros Hdf. destruct (cel_merge_ids shards df Hdf) as (Hparts & _).
  assert (cel_key <$> df
          = (λ p, (PARTITION p, DROPLET_ID_PARTITIONED p)) <$> (cel_part <$> df))
    as -> by (by rewrite <- list_fmap_compose).
  rewrite Hparts. unfold cel_parts. clear.
  assert (∀ (g : nat → nat),
    (λ p, (PARTITION p, DROPLET_ID_PARTITIONED p))
      <$> concat (imap (λ i rows, cel_tag (g i) <$> rows) shards)
    = concat (imap (λ i rows, (λ r, (g i, cel_DROPLET_ID r)) <$> rows) shards))
    as H.
  { induction shards as [|rows shards IH]; intros g; [done|].
    cbn [imap concat]. rewrite fmap_app, <- list_fmap_compose. f_equal.
    apply (IH (g ∘ S)). }
  apply (H id).
Qed.

(** X6. When the droplet merge returns a table for shards that parse, the
    pairs (PARTITION, DROPLET_ID_PARTITIONED) of the table are pairwise
    distinct exactly when no shard has the same #DROPLET_ID twice: the
    uniqueness that the SNP join relies on is a property of each shard
    alone, and ids may repeat freely across shards. *)
Theorem droplet_keys_unique_iff (L : Libs) prefix out w w' df shards :
  Forall2 (readable (read_csv_cel L) (fs w))
    (sorted_glob L (fs w) (prefix +:+ ".*" +:+ cel_suffix)) shards →
  write_popscle_pileup_cel_full_filename L prefix out w = (w', Ok (Some df)) →
  NoDup (cel_key <$> df)
  ↔ Forall (λ rows, NoDup (cel_DROPLET_ID <$> rows)) shards.
Proof.
  intros Hread Hrun.
  rewrite (cel_merge_keys shards df (cel_returns_merge _ _ _ _ _ _ _ Hread Hrun)).
  apply NoDup_tagged.
Qed.

Lemma droplet_keys_unique_iff_witness :
  NoDup (cel_key <$> Sample.cel_df)
  ↔ Forall (λ rows, NoDup (cel_DROPLET_ID <$> rows)) Sample.cel_shards.
Proof.
  apply (droplet_keys_unique_iff Toy.libs "in" "out" Sample.world
           (write_popscle_pileup_cel_full_filename Toy.libs "in" "out"
              Sample.world).1).
  - replace (sorted_glob Toy.libs (fs Sample.world) ("in" +:+ ".*" +:+ cel_suffix))
      with ["in.0.pileup.cel.gz"; "in.1.pileup.cel.gz"; "in.2.pileup.cel.gz"]
      by (vm_compute; reflexivity).
    repeat constructor; eexists; split; vm_compute; reflexivity.
  - vm_compute. reflexivity.
Defined.

(** ** The two merges together *)

(** The correction table of merged shards, read shard by shard. *)
Lemma global_id_by_shard shards df i d :
  cel_merge shards = Ok df →
  Forall (λ rows, NoDup (cel_DROPLET_ID <$> rows)) shards →
  global_id df (i, d)
  = (λ hit, shard_offset shards i + hit.1)
    <$> list_find (λ c, cel_DROPLET_ID c = d) (default [] (shards !! i)).
Proof.
  intros Hdf Hshards.
  assert (NoDup (cel_key <$> df)) as Hnd.
  { rewrite (cel_merge_keys shards df Hdf). by apply NoDup_tagged. }
  destruct (list_find _ (default [] (shards !! i))) as [[j c]|] eqn:Hfind; simpl.
  - apply list_find_Some in Hfind as (Hj & Hc & _).
    destruct (shards !! i) as [rows|] eqn:Hi; [|done]. simpl in Hj.
    apply global_id_Some; [done|].
    exists (mkCelFull (shard_offset shards i + j) (cel_tag i c)).
    split_and!; [|by rewrite <- Hc|done].
    eapply list_elem_of_lookup_2. by apply (cel_merge_lookup shards df i rows j c).
  - apply list_find_None in Hfind. rewrite Forall_forall in Hfind.
    apply global_id_None. intros (c & Hkey & Hc)%list_elem_of_fmap.
    destruct (cel_merge_ids shards df Hdf) as (Hparts & _).
    assert (cel_part c ∈ concat (cel_parts shards)) as Hin.
    { rewrite <- Hparts. by apply list_elem_of_fmap_2. }
    apply elem_of_concat_cel_parts in Hin as (i' & rows & r & Hi' & Hr & Hpart).
    unfold cel_key in Hkey. rewrite Hpart in Hkey. simpl in Hkey.
    injection Hkey as -> ->. rewrite Hi' in Hfind. simpl in Hfind.
    by apply (Hfind r).
Qed.

(** X7. With droplet shards that parse and repeat no #DROPLET_ID, the frame
    the SNP merge writes for shard [i] against the table the droplet merge
    returned is, up to the order of its rows: every input row whose
    partitioned id occurs in droplet shard [i], with (rows of the droplet
    shards before [i]) + (position of that id in droplet shard [i]) as its
    id; a row whose id does not occur in droplet shard [i] is dropped, also
    when another droplet shard has that id, and all rows are dropped when
    there is no droplet shard [i]. *)
Theorem snp_rows_by_droplet_shard (L : Libs) prefix out w w' df cel_shards
    i rows :
  Forall2 (readable (read_csv_cel L) (fs w))
    (sorted_glob L (fs w) (prefix +:+ ".*" +:+ cel_suffix)) cel_shards →
  write_popscle_pileup_cel_full_filename L prefix out w = (w', Ok (Some df)) →
  Forall (λ rows, NoDup (cel_DROPLET_ID <$> rows)) cel_shards →
  plp_part df i rows ≡ₚ omap (plp_by_shard cel_shards i) rows
  ∧ (cel_shards !! i = None → plp_part df i rows = []).
Proof.
  intros Hread Hrun Hshards.
  pose proof (cel_returns_merge _ _ _ _ _ _ _ Hread Hrun) as Hdf.
  assert (NoDup (cel_key <$> df)) as Hnd.
  { rewrite (cel_merge_keys cel_shards df Hdf). by apply NoDup_tagged. }
  assert (plp_part df i rows = omap (plp_by_shard cel_shards i) rows) as Heq.
  { rewrite (plp_part_eq_spec df i rows Hnd). unfold plp_part_spec.
    apply list_omap_ext, Forall2_same_length_lookup_2; [done|].
    intros k r r' Hr Hr'. simplify_eq.
    unfold plp_rewrite, plp_by_shard.
    rewrite (global_id_by_shard cel_shards df i _ Hdf Hshards).
    by destruct (list_find _ _) as [[j c]|]. }
  split; [by rewrite Heq|].
  intros Hnone. rewrite Heq. unfold plp_by_shard. rewrite Hnone. simpl.
  clear. by induction rows.
Qed.

Lemma snp_rows_by_droplet_shard_witness :
  plp_part Sample.cel_df 1 (Toy.plp_row <$> [x02; x07])
    ≡ₚ omap (plp_by_shard Sample.cel_shards 1) (Toy.plp_row <$> [x02; x07])
  ∧ (Sample.cel_shards !! 1 = None →
     plp_part Sample.cel_df 1 (Toy.plp_row <$> [x02; x07]) = []).
Proof.
  apply (snp_rows_by_droplet_shard Toy.libs "in" "out" Sample.world
           (write_popscle_pileup_cel_full_filename Toy.libs "in" "out"
              Sample.world).1).
  - replace (sorted_glob Toy.libs (fs Sample.world) ("in" +:+ ".*" +:+ cel_suffix))
      with ["in.0.pileup.cel.gz"; "in.1.pileup.cel.gz"; "in.2.pileup.cel.gz"]
      by (vm_compute; reflexivity).
    repeat constructor; eexists; split; vm_compute; reflexivity.
  - vm_compute. reflexivity.
  - apply (bool_decide_unpack _). vm_compute. reflexivity.
Defined.

(** ** A shard that cannot be read *)





(** ** UMI lines: merging what a merge wrote *)

Lemma pretty_N_char_not_tab d : Ascii.eqb (pretty_N_char d) tab = false.
Proof. unfold pretty_N_char. by repeat case_match. Qed.

Lemma pretty_N_go_no_tab x :
  ∀ s, has_tab s = false → has_tab (pretty_N_go x s) = false.
Proof.
  induction (N.lt_wf_0 x) as [x _ IH]. intros s Hs.
  destruct (decide (x = 0)%N) as [->|Hx].
  - by rewrite pretty_N_go_0.
  - rewrite pretty_N_go_step by lia. apply IH.
    + apply N.div_lt; lia.
    + simpl. by rewrite pretty_N_char_not_tab.
Qed.

(** The decimal numeral of a counter has no tab. *)
Lemma str_no_tab k : has_tab (str k) = false.
Proof.
  unfold str, pretty, pretty_nat, pretty, pretty_N.
  case_decide; [done|]. by apply pretty_N_go_no_tab.
Qed.

Lemma split_tab_1_app a b :
  has_tab a = false → split_tab_1 (a +:+ String tab b) = (a, Some b).
Proof.
  induction a as [|c a IH]; simpl; [done|].
  destruct (Ascii.eqb c tab); simpl; [done|].
  intros Ha. by rewrite (IH Ha).
Qed.

Lemma umi_renumber_fixed k j line :
  umi_line k (umi_renumber j line) = Ok (umi_renumber k line).
Proof.
  unfold umi_line, umi_renumber at 1.
  by rewrite (split_tab_1_app _ _ (str_no_tab j)).
Qed.

Lemma umi_lines_renumbered lines :
  ∀ (f : nat → nat) out n,
  umi_lines (imap (λ k, umi_renumber (f k)) lines) out n
  = (out ++ imap (λ k, umi_renumber (n + k)) lines, Ok (n + length lines)).
Proof.
  induction lines as [|line lines IH]; intros f out n; simpl.
  - by rewrite app_nil_r, Nat.add_0_r.
  - rewrite umi_renumber_fixed.
    rewrite (IH (f ∘ S)). rewrite <- app_assoc. simpl. rewrite Nat.add_0_r.
    f_equal; [|f_equal; lia]. do 2 f_equal.
    apply imap_ext. intros k x _. simpl. f_equal. lia.
Qed.

(** X11. The output of a UMI merge is a fixed point of the merge: merging,
    as one shard, lines that a merge wrote (line [k] being the counter [k],
    a tab and a remainder) writes the same lines again and ends with the
    counter at their number.  The counter's numeral has no tab, so the
    split takes exactly the old counter off. *)
Theorem umi_merge_fixed_point shards :
  Forall (λ line, has_tab line = true) (concat shards) →
  ∃ written,
    umi_shards shards [] 0 = (written, Ok (length written))
    ∧ umi_shards [written] [] 0 = (written, Ok (length written)).
Proof.
  intros Htabs. exists (imap umi_renumber (concat shards)).
  rewrite length_imap. split.
  - by rewrite umi_shards_concat, (umi_lines_ok _ [] 0 Htabs).
  - rewrite umi_shards_concat. cbn [concat]. rewrite app_nil_r.
    exact (umi_lines_renumbered (concat shards) id [] 0).
Qed.

Lemma umi_merge_fixed_point_witness :
  ∃ written,
    umi_shards Sample.umi_shards [] 0 = (written, Ok (length written))
    ∧ umi_shards [written] [] 0 = (written, Ok (length written)).
Proof.
  apply (umi_merge_fixed_point Sample.umi_shards).
  repeat constructor.
Defined.

(** ** Shards that are prefixes of one another *)




(** ** The data columns *)

Lemma cel_parts_columns {B} (f : CelRow → B) (g : CelPart → B) shards :
  (∀ i r, g (cel_tag i r) = f r) →
  g <$> concat (cel_parts shards) = f <$> concat shards.
Proof.
  intros Hfg. unfold cel_parts.
  assert (∀ (h : nat → nat),
    g <$> concat (imap (λ i rows, cel_tag (h i) <$> rows) shards)
    = f <$> concat shards) as H.
  { induction shards as [|rows shards IH]; intros h; [done|].
    cbn [imap concat]. rewrite !fmap_app, <- list_fmap_compose. f_equal.
    - apply list_fmap_ext. intros _ r _. apply Hfg.
    - apply (IH (h ∘ S)). }
  apply (H id).
Qed.

(** X13. The droplet merge changes the leading id and nothing else: when
    it returns a table for shards that parse, the rows it has written carry
    the barcodes and the four counts of the shards' rows, unchanged and in
    the order of the concatenation, and the helper columns are not among
    the written ones. *)
Theorem droplet_merge_keeps_columns (L : Libs) prefix out w w' df shards :
  Forall2 (readable (read_csv_cel L) (fs w))
    (sorted_glob L (fs w) (prefix +:+ ".*" +:+ cel_suffix)) shards →
  write_popscle_pileup_cel_full_filename L prefix out w = (w', Ok (Some df)) →
  fs w' !! (out +:+ cel_suffix)
  = Some (gzip_compress L (write_csv_cel L true (cel_select <$> df)))
  ∧ (λ o, (out_BARCODE o, out_NUM_READ o, out_NUM_UMI o, out_NUM_UMIwSNP o,
           out_NUM_SNP o)) <$> (cel_select <$> df)
    = (λ r, (cel_BARCODE r, cel_NUM_READ r, cel_NUM_UMI r, cel_NUM_UMIwSNP r,
             cel_NUM_SNP r)) <$> concat shards
  ∧ length df = length (concat shards).
Proof.
  intros Hread Hrun.
  pose proof (cel_returns_merge _ _ _ _ _ _ _ Hread Hrun) as Hdf.
  destruct (cel_merge_ids shards df Hdf) as (Hparts & Hids & _).
  split_and!.
  - destruct (fs w !! (out +:+ cel_suffix)) as [c|] eqn:Hdest.
    { by rewrite cel_refuses in Hrun. }
    rewrite (cel_run L prefix out w shards Hdest Hread), Hdf in Hrun.
    injection Hrun as <-. simpl. apply lookup_insert_eq.
  - rewrite <- list_fmap_compose.
    rewrite <- (cel_parts_columns _
      (λ p, (BARCODE p, NUM_READ p, NUM_UMI p, NUM_UMIwSNP p, NUM_SNP p)) shards)
      by done.
    by rewrite <- Hparts, <- list_fmap_compose.
  - by rewrite <- (length_fmap DROPLET_ID), Hids, length_seq.
Qed.

Lemma droplet_merge_keeps_columns_witness :
  fs (write_popscle_pileup_cel_full_filename Toy.libs "in" "out" Sample.world).1
    !! ("out" +:+ cel_suffix)
  = Some (gzip_compress Toy.libs
            (write_csv_cel Toy.libs true (cel_select <$> Sample.cel_df)))
  ∧ (λ o, (out_BARCODE o, out_NUM_READ o, out_NUM_UMI o, out_NUM_UMIwSNP o,
           out_NUM_SNP o)) <$> (cel_select <$> Sample.cel_df)
    = (λ r, (cel_BARCODE r, cel_NUM_READ r, cel_NUM_UMI r, cel_NUM_UMIwSNP r,
             cel_NUM_SNP r)) <$> concat Sample.cel_shards
  ∧ length Sample.cel_df = length (concat Sample.cel_shards).
Proof.
  apply (droplet_merge_keeps_columns Toy.libs "in" "out" Sample.world).
  - replace (sorted_glob Toy.libs (fs Sample.world) ("in" +:+ ".*" +:+ cel_suffix))
      with ["in.0.pileup.cel.gz"; "in.1.pileup.cel.gz"; "in.2.pileup.cel.gz"]
      by (vm_compute; reflexivity).
    repeat constructor; eexists; split; vm_compute; reflexivity.
  - vm_compute. reflexivity.
Defined.
